(** * better.finder: the launcher's search front end, embedded and verified

    The embedding follows the TypeScript sources:
    - [src/hooks/useKeyboard.ts]        module [UseKeyboard]
    - [src/utils/highlight.tsx]         module [Highlight]
    - [src/components/ResultGroup.tsx]  module [ResultGroup]
    - [src/hooks/useSearch.ts]          module [UseSearch]
    - [src/components/SearchBar.tsx]    module [SearchBar]
    and, for the ranking step that lives in the Rust back end, the
    specification's description of it: module [Engine].

    JavaScript strings are lists of UTF-16 code units, numbers that hold
    indexes and counts are integers, React state is a record passed from
    step to step, and the body of an async function is a computation in a
    state-and-exception monad, split at its [await]. A render and the
    effects it triggers are taken as one step. *)

From Stdlib Require Import ZArith List Lia Permutation Sorted String Ascii.
From stdpp Require Import base list gmap strings.
Import ListNotations.

(** ** JavaScript values shared by the modules *)

Module Js.

(** A JavaScript string is a sequence of UTF-16 code units. *)
Abbreviation jsstring := (list N).

(** ASCII literals, for readable examples. *)
Definition str (s : string) : jsstring :=
  map N_of_ascii (list_ascii_of_string s).

(** Code units removed by [String.prototype.trim]: WhiteSpace and
    LineTerminator of ECMA-262. *)
Definition is_white_space (c : N) : bool :=
  ((9 <=? c) && (c <=? 13) ||
   (c =? 32) || (c =? 160) || (c =? 5760) ||
   (8192 <=? c) && (c <=? 8202) ||
   (c =? 8232) || (c =? 8233) || (c =? 8239) || (c =? 8287) ||
   (c =? 12288) || (c =? 65279))%N.

Fixpoint trimStart (s : jsstring) : jsstring :=
  match s with
  | [] => []
  | c :: rest => if is_white_space c then trimStart rest else s
  end.

Definition trimEnd (s : jsstring) : jsstring := rev (trimStart (rev s)).

Definition trim (s : jsstring) : jsstring := trimEnd (trimStart s).

(** [s.substring(a, b)] on non-negative integers: both bounds are clamped
    to the length and swapped when out of order. *)
Definition substring (s : jsstring) (a b : nat) : jsstring :=
  let a' := Nat.min a (length s) in
  let b' := Nat.min b (length s) in
  take (Nat.max a' b' - Nat.min a' b') (drop (Nat.min a' b') s).

(** [s.substring(a)]. *)
Definition substring_from (s : jsstring) (a : nat) : jsstring := drop a s.

(** [s[i]] rendered as a React child: the one-unit string, or nothing when
    the index is out of range ([undefined] renders as nothing). *)
Definition char_at (s : jsstring) (i : nat) : jsstring :=
  match s !! i with
  | Some c => [c]
  | None => []
  end.

(** Values a promise can reject with: an [Error] instance carrying a
    message, or any other value (Tauri rejects with the serialised error,
    usually a plain string). *)
Inductive value :=
| JsError (message : jsstring)
| JsOther (payload : jsstring).

(** [err instanceof Error ? err.message : fallback] *)
Definition message_or (fallback : jsstring) (err : value) : jsstring :=
  match err with
  | JsError m => m
  | JsOther _ => fallback
  end.

(** The human-readable cause a rejection value carries. *)
Definition cause (err : value) : jsstring :=
  match err with
  | JsError m => m
  | JsOther p => p
  end.

(** State-and-exception monad for the bodies of (async) functions: a
    computation returns normally with a value or throws a [value]. *)
Definition M (S A : Type) : Type := S -> (A + value) * S.

Definition ret {S A} (a : A) : M S A := fun s => (inl a, s).

Definition throw {S A} (e : value) : M S A := fun s => (inr e, s).

Definition bind {S A B} (m : M S A) (k : A -> M S B) : M S B :=
  fun s =>
    match m s with
    | (inl a, s') => k a s'
    | (inr e, s') => (inr e, s')
    end.

Definition get {S} : M S S := fun s => (inl s, s).

Definition modify {S} (f : S -> S) : M S unit := fun s => (inl tt, f s).

(** [try { body } catch (err) { handler(err) }] *)
Definition try_catch {S A} (body : M S A) (handler : value -> M S A) : M S A :=
  fun s =>
    match body s with
    | (inl a, s') => (inl a, s')
    | (inr e, s') => handler e s'
    end.

(** [try { body } finally { cleanup }]: the cleanup runs on both exits; a
    throw inside the cleanup replaces the body's completion. *)
Definition try_finally {S A} (body : M S A) (cleanup : M S unit) : M S A :=
  fun s =>
    match body s with
    | (r, s') =>
        match cleanup s' with
        | (inl _, s'') => (r, s'')
        | (inr e, s'') => (inr e, s'')
        end
    end.

Definition when {S} (b : bool) (m : M S unit) : M S unit :=
  if b then m else ret tt.

End Js.

Notation "'let*' x ':=' m 'in' k" := (Js.bind m (fun x => k))
  (at level 10, x name, m at level 100, k at level 200).
Notation "m ';;' k" := (Js.bind m (fun _ => k))
  (at level 100, k at level 200, right associativity).

(** ** Result types ([src/types], as used by the components) *)

Inductive ResultType :=
| File | Application | QuickAction | Calculator
| Clipboard | Bookmark | RecentFile | WebSearch.

#[global] Instance ResultType_eq_dec : EqDecision ResultType.
Proof. solve_decision. Defined.

Definition ResultType_code (t : ResultType) : nat :=
  match t with
  | File => 0 | Application => 1 | QuickAction => 2 | Calculator => 3
  | Clipboard => 4 | Bookmark => 5 | RecentFile => 6 | WebSearch => 7
  end.

Definition ResultType_of_code (n : nat) : ResultType :=
  match n with
  | 0 => File | 1 => Application | 2 => QuickAction | 3 => Calculator
  | 4 => Clipboard | 5 => Bookmark | 6 => RecentFile | _ => WebSearch
  end.

#[global] Instance ResultType_countable : Countable ResultType.
Proof.
  apply (inj_countable' ResultType_code ResultType_of_code).
  intros []; reflexivity.
Defined.

Inductive ActionType :=
| OpenFile | LaunchApp | RunCommand | CopyToClipboard | OpenUrl.

Record Action := { action_type : ActionType; payload : Js.jsstring }.

Record SearchResult := {
  id : Js.jsstring;
  title : Js.jsstring;
  subtitle : Js.jsstring;
  icon : option Js.jsstring;
  type : ResultType;
  score : Z;
  metadata : list (Js.jsstring * Js.jsstring);
  action : Action
}.

(** ** [useKeyboardSelection] (src/hooks/useKeyboard.ts) *)

Module UseKeyboard.

Local Open Scope Z_scope.

(** The updater passed to [setSelectedIndex] by [moveUp]. *)
Definition moveUp (itemCount prev : Z) : Z :=
  if itemCount =? 0 then 0
  else if prev <=? 0 then itemCount - 1 else prev - 1.

(** The updater passed to [setSelectedIndex] by [moveDown]. *)
Definition moveDown (itemCount prev : Z) : Z :=
  if itemCount =? 0 then 0
  else if prev >=? itemCount - 1 then 0 else prev + 1.

Definition resetSelection (prev : Z) : Z := 0.

(** The effect that runs after a render in which [itemCount] or
    [selectedIndex] changed. *)
Definition effect (itemCount selectedIndex : Z) : Z :=
  if itemCount =? 0 then 0
  else if selectedIndex >=? itemCount then Z.max 0 (itemCount - 1)
  else selectedIndex.

Inductive call := MoveUp | MoveDown | ResetSelection.

Definition apply_call (itemCount : Z) (c : call) (prev : Z) : Z :=
  match c with
  | MoveUp => moveUp itemCount prev
  | MoveDown => moveDown itemCount prev
  | ResetSelection => resetSelection prev
  end.

(** One call followed by the re-render it causes. *)
Definition step (itemCount : Z) (c : call) (prev : Z) : Z :=
  effect itemCount (apply_call itemCount c prev).

(** [useState(initialIndex)] followed by the mount effect. *)
Definition mount (itemCount initialIndex : Z) : Z :=
  effect itemCount initialIndex.

Definition run (itemCount : Z) (calls : list call) (start : Z) : Z :=
  fold_left (fun i c => step itemCount c i) calls start.

(** A valid position in a list of [itemCount] items. *)
Definition in_range (itemCount i : Z) : Prop := 0 <= i <= itemCount - 1.

End UseKeyboard.

(** ** [highlightMatches] and [highlightText] (src/utils/highlight.tsx) *)

Module Highlight.

Import Js.

(** The part of a [Fuzzysort.Result] the code reads. *)
Record FuzzyResult := { target : jsstring; indexes : list nat }.

Inductive SpanKey :=
| KeyText (i : nat) | KeyHighlight (i : nat) | KeyTextEnd.

(** A [<span>]: highlighted spans carry the class
    ["text-primary font-semibold"]. *)
Record Span := { key : SpanKey; highlighted : bool; content : jsstring }.

Inductive ReactNode :=
| RNull
| RText (s : jsstring)
| RFragment (elements : list Span).

(** The body of [indexes.forEach((index, i) => ...)], threading the
    [elements] array and [lastIndex]. *)
Fixpoint forEach_index (text : jsstring) (idxs : list nat) (i : nat)
    (elements : list Span) (lastIndex : nat) : list Span * nat :=
  match idxs with
  | [] => (elements, lastIndex)
  | index :: rest =>
      let elements1 :=
        if lastIndex <? index
        then elements ++
             [{| key := KeyText i; highlighted := false;
                 content := substring text lastIndex index |}]
        else elements in
      let elements2 :=
        elements1 ++
        [{| key := KeyHighlight i; highlighted := true;
            content := char_at text index |}] in
      forEach_index text rest (S i) elements2 (index + 1)
  end.

Definition highlightMatches (result : option FuzzyResult) : ReactNode :=
  match result with
  | None => RNull
  | Some r =>
      match target r with
      | [] => RNull
      | _ :: _ =>
          match indexes r with
          | [] => RText (target r)
          | _ :: _ =>
              let text := target r in
              let '(elements, lastIndex) :=
                forEach_index text (indexes r) 0 [] 0 in
              RFragment
                (if lastIndex <? length text
                 then elements ++
                      [{| key := KeyTextEnd; highlighted := false;
                          content := substring_from text lastIndex |}]
                 else elements)
          end
      end
  end.

Section WithFuzzysort.

(** [Fuzzysort.single(query, text)] of the fuzzysort package. *)
Variable single : jsstring -> jsstring -> option FuzzyResult.

Definition highlightText (text query : jsstring) : ReactNode :=
  match query, text with
  | [], _ => RText text
  | _, [] => RText text
  | _, _ => highlightMatches (single query text)
  end.

End WithFuzzysort.

(** What the browser shows: each rendered code unit with a flag telling
    whether it sits inside a highlight span. *)
Definition span_marks (sp : Span) : list (N * bool) :=
  map (fun c => (c, highlighted sp)) (content sp).

Definition marks (node : ReactNode) : list (N * bool) :=
  match node with
  | RNull => []
  | RText s => map (fun c => (c, false)) s
  | RFragment elements => flat_map span_marks elements
  end.

(** [container.textContent] *)
Definition textContent (node : ReactNode) : jsstring := map fst (marks node).

(** The expected marking: the code unit at position [pos + k] of the text
    is highlighted exactly when that position is one of the match
    indexes. *)
Fixpoint mark_from (pos : nat) (idxs : list nat) (text : jsstring)
    : list (N * bool) :=
  match text with
  | [] => []
  | c :: rest => (c, bool_decide (pos ∈ idxs)) :: mark_from (S pos) idxs rest
  end.

(** fuzzysort reports match positions in increasing order, inside the
    target. *)
Fixpoint increasing_from (lo : nat) (idxs : list nat) : Prop :=
  match idxs with
  | [] => True
  | i :: rest => lo <= i /\ increasing_from (S i) rest
  end.

Definition valid_indexes (r : FuzzyResult) : Prop :=
  increasing_from 0 (indexes r) /\
  Forall (fun i => i < length (target r)) (indexes r).

(** What fuzzysort reports for the query "doc" on "Document". *)
Definition document_match : FuzzyResult :=
  {| target := str "Document"; indexes := [0; 1; 2] |}.

End Highlight.

(** ** [groupedResults] (src/components/ResultGroup.tsx) *)

Module ResultGroup.

Import Js.

(** [interface GroupedResults]; the fields are [type], [title], [results]
    and [startIndex] in the source. *)
Record GroupedResults := {
  g_type : ResultType;
  g_title : jsstring;
  g_results : list SearchResult;
  startIndex : nat
}.

Definition getGroupTitle (t : ResultType) : jsstring :=
  match t with
  | File => str "FILES"
  | Application => str "APPLICATIONS"
  | QuickAction => str "QUICK ACTIONS"
  | Calculator => str "CALCULATOR"
  | Clipboard => str "CLIPBOARD"
  | Bookmark => str "BOOKMARKS"
  | RecentFile => str "RECENT FILES"
  | WebSearch => str "WEB SEARCH"
  end.

(** The body of [results.forEach((result) => ...)] on [typeMap]. *)
Definition typeMap_add (typeMap : gmap ResultType (list SearchResult))
    (result : SearchResult) : gmap ResultType (list SearchResult) :=
  match typeMap !! type result with
  | Some existing => <[type result := existing ++ [result]]> typeMap
  | None => <[type result := [result]]> typeMap
  end.

Definition build_typeMap (results : list SearchResult)
    : gmap ResultType (list SearchResult) :=
  fold_left typeMap_add results ∅.

Definition typeOrder : list ResultType :=
  [RecentFile; File; Application; QuickAction;
   Calculator; Bookmark; Clipboard; WebSearch].

(** The body of [typeOrder.forEach((type) => ...)], threading
    [currentIndex]; the groups are produced in push order. *)
Fixpoint collect_groups (order : list ResultType)
    (typeMap : gmap ResultType (list SearchResult)) (currentIndex : nat)
    : list GroupedResults :=
  match order with
  | [] => []
  | ty :: rest =>
      match typeMap !! ty with
      | Some typeResults =>
          if 0 <? length typeResults
          then {| g_type := ty; g_title := getGroupTitle ty;
                  g_results := typeResults; startIndex := currentIndex |}
               :: collect_groups rest typeMap (currentIndex + length typeResults)
          else collect_groups rest typeMap currentIndex
      | None => collect_groups rest typeMap currentIndex
      end
  end.

Definition groupedResults (results : list SearchResult) : list GroupedResults :=
  collect_groups typeOrder (build_typeMap results) 0.

(** The results in the order the list shows them: [flattenedItems]
    without headers and separators. *)
Definition displayed (groups : list GroupedResults) : list SearchResult :=
  flat_map g_results groups.

(** The results of one type, in the order of the list. *)
Definition of_type (ty : ResultType) (results : list SearchResult)
    : list SearchResult :=
  filter (fun r => type r = ty) results.

(** *** The same computation on the object store

    Arrays and [SearchResult] objects are heap cells; [results] holds
    references, [existing.push(result)] updates an array cell in place and
    an array literal allocates a new cell at the end of the store. *)
Inductive cell :=
| Obj (r : SearchResult)
| Arr (elems : list nat).

Abbreviation store := (list cell).













End ResultGroup.

(** ** [useSearch] (src/hooks/useSearch.ts) *)

Module UseSearch.

Import Js.

Definition DEBOUNCE_DELAY : nat := 150.

Inductive LogEntry :=
| ConsoleLog (label detail : jsstring)
| ConsoleError (label detail : jsstring).

(** A timer created by [setTimeout]: its id is its position in the
    timer table. *)
Record Timer := {
  deadline : nat;
  callback_query : jsstring;
  pending : bool
}.

(** The state of one mounted [useSearch] hook together with the parts of
    its environment it drives: the [AbortController] objects it created,
    its timers, the clock, the [search_query] invocations sent to the back
    end (with a flag telling whether the call has settled) and the
    console. *)
Record Hook := {
  query : jsstring;
  results : list SearchResult;
  isLoading : bool;
  error : option jsstring;
  controllers : list bool;
  abortControllerRef : option nat;
  timers : list Timer;
  debounceTimerRef : option nat;
  now : nat;
  calls : list (jsstring * bool);
  console : list LogEntry
}.

Definition setQueryState (q : jsstring) (s : Hook) : Hook :=
  {| query := q; results := results s; isLoading := isLoading s;
     error := error s; controllers := controllers s;
     abortControllerRef := abortControllerRef s; timers := timers s;
     debounceTimerRef := debounceTimerRef s; now := now s;
     calls := calls s; console := console s |}.

Definition setResults (r : list SearchResult) (s : Hook) : Hook :=
  {| query := query s; results := r; isLoading := isLoading s;
     error := error s; controllers := controllers s;
     abortControllerRef := abortControllerRef s; timers := timers s;
     debounceTimerRef := debounceTimerRef s; now := now s;
     calls := calls s; console := console s |}.

Definition setIsLoading (b : bool) (s : Hook) : Hook :=
  {| query := query s; results := results s; isLoading := b;
     error := error s; controllers := controllers s;
     abortControllerRef := abortControllerRef s; timers := timers s;
     debounceTimerRef := debounceTimerRef s; now := now s;
     calls := calls s; console := console s |}.

Definition setError (e : option jsstring) (s : Hook) : Hook :=
  {| query := query s; results := results s; isLoading := isLoading s;
     error := e; controllers := controllers s;
     abortControllerRef := abortControllerRef s; timers := timers s;
     debounceTimerRef := debounceTimerRef s; now := now s;
     calls := calls s; console := console s |}.

Definition with_controllers (cs : list bool) (cur : option nat) (s : Hook)
    : Hook :=
  {| query := query s; results := results s; isLoading := isLoading s;
     error := error s; controllers := cs;
     abortControllerRef := cur; timers := timers s;
     debounceTimerRef := debounceTimerRef s; now := now s;
     calls := calls s; console := console s |}.

Definition with_timers (ts : list Timer) (cur : option nat) (s : Hook)
    : Hook :=
  {| query := query s; results := results s; isLoading := isLoading s;
     error := error s; controllers := controllers s;
     abortControllerRef := abortControllerRef s; timers := ts;
     debounceTimerRef := cur; now := now s;
     calls := calls s; console := console s |}.

Definition with_now (t : nat) (s : Hook) : Hook :=
  {| query := query s; results := results s; isLoading := isLoading s;
     error := error s; controllers := controllers s;
     abortControllerRef := abortControllerRef s; timers := timers s;
     debounceTimerRef := debounceTimerRef s; now := t;
     calls := calls s; console := console s |}.

Definition with_calls (cs : list (jsstring * bool)) (s : Hook) : Hook :=
  {| query := query s; results := results s; isLoading := isLoading s;
     error := error s; controllers := controllers s;
     abortControllerRef := abortControllerRef s; timers := timers s;
     debounceTimerRef := debounceTimerRef s; now := now s;
     calls := cs; console := console s |}.

Definition console_push (e : LogEntry) (s : Hook) : Hook :=
  {| query := query s; results := results s; isLoading := isLoading s;
     error := error s; controllers := controllers s;
     abortControllerRef := abortControllerRef s; timers := timers s;
     debounceTimerRef := debounceTimerRef s; now := now s;
     calls := calls s; console := console s ++ [e] |}.

(** The queries sent to the back end through [invoke('search_query')],
    oldest first. *)
Definition invoked (s : Hook) : list jsstring := map fst (calls s).

(** [abortControllerRef.current.abort()] when the ref is set. *)
Definition abort_current (s : Hook) : Hook :=
  match abortControllerRef s with
  | Some c => with_controllers (<[c := true]> (controllers s)) (Some c) s
  | None => s
  end.

(** [abortControllerRef.current = new AbortController()] *)
Definition new_controller (s : Hook) : Hook :=
  with_controllers (controllers s ++ [false])
    (Some (length (controllers s))) s.

(** [performSearch] up to its [await]: lines 34-55.  For a blank query it
    runs to its [return]; otherwise it leaves an unsettled
    [search_query] call behind. *)
Definition performSearch_start (searchQuery : jsstring) (s : Hook) : Hook :=
  let s := new_controller (abort_current s) in
  match trim searchQuery with
  | [] => setError None (setIsLoading false (setResults [] s))
  | _ :: _ =>
      let s := setError None (setIsLoading true s) in
      with_calls (calls s ++ [(searchQuery, false)]) s
  end.

(** [abortControllerRef.current.signal.aborted], read through the ref at
    the moment of the test; a [null] ref is a [TypeError]. *)
Definition current_aborted : M Hook bool :=
  fun s =>
    match abortControllerRef s with
    | Some c =>
        match controllers s !! c with
        | Some b => (inl b, s)
        | None => (inr (JsError (str "TypeError")), s)
        end
    | None => (inr (JsError (str "TypeError")), s)
    end.

(** The value of the awaited [invoke] promise. *)
Definition await {S A} (outcome : A + value) : M S A :=
  match outcome with
  | inl a => ret a
  | inr e => throw e
  end.

(** [performSearch] from the [await] on: lines 53-75. *)
Definition performSearch_resume (outcome : list SearchResult + value)
    : M Hook unit :=
  try_finally
    (try_catch
       (let* searchResults := await outcome in
        let* aborted := current_aborted in
        when (negb aborted)
          (modify (setResults searchResults) ;; modify (setError None)))
       (fun err =>
          let* aborted := current_aborted in
          when (negb aborted)
            (let errorMessage := message_or (str "Search failed") err in
             modify (console_push (ConsoleError (str "Search error:") errorMessage)) ;;
             modify (setError (Some errorMessage)) ;;
             modify (setResults []))))
    (let* aborted := current_aborted in
     when (negb aborted) (modify (setIsLoading false))).

(** [executeResult]: lines 103-112, given what [invoke('execute_result')]
    settles with. *)
Definition executeResult (outcome : unit + value) (result : SearchResult)
    : M Hook unit :=
  try_catch
    (let* _ := await outcome in
     modify (console_push
               (ConsoleLog (str "Result executed successfully:") (title result))))
    (fun err =>
       let errorMessage := message_or (str "Failed to execute result") err in
       modify (console_push (ConsoleError (str "Execute error:") errorMessage)) ;;
       throw (JsError errorMessage)).

(** A timer that has run or has been cleared. *)
Definition switch_off (tm : Timer) : Timer :=
  {| deadline := deadline tm; callback_query := callback_query tm;
     pending := false |}.

(** [clearTimeout(id)] *)
Definition clearTimeout (id : nat) (ts : list Timer) : list Timer :=
  match ts !! id with
  | Some t => <[id := switch_off t]> ts
  | None => ts
  end.

Definition clear_debounce (s : Hook) : Hook :=
  match debounceTimerRef s with
  | Some id => with_timers (clearTimeout id (timers s)) (Some id) s
  | None => s
  end.

(** The debounce effect, lines 81-98: the cleanup of the previous run,
    then the body, whose closure captures the rendered [query]. *)
Definition debounce_effect (s : Hook) : Hook :=
  let s := clear_debounce s in
  let s := clear_debounce s in
  with_timers
    (timers s ++
     [{| deadline := now s + DEBOUNCE_DELAY; callback_query := query s;
         pending := true |}])
    (Some (length (timers s))) s.

(** [setQuery(q)]: React skips the render, and with it the effect, when
    the new state is identical to the current one. *)
Definition setQuery (q : jsstring) (s : Hook) : Hook :=
  if decide (q = query s) then s
  else debounce_effect (setQueryState q s).

(** The timers that are due at time [t], in timer order, and the table
    once they have run. *)
Fixpoint due_callbacks (t : nat) (ts : list Timer)
    : list jsstring * list Timer :=
  match ts with
  | [] => ([], [])
  | tm :: rest =>
      let '(qs, rest') := due_callbacks t rest in
      if pending tm && (deadline tm <=? t)
      then (callback_query tm :: qs, switch_off tm :: rest')
      else (qs, tm :: rest')
  end.

(** [dt] milliseconds pass: each due timer runs [performSearch(query)]. *)
Definition advance (dt : nat) (s : Hook) : Hook :=
  let t := now s + dt in
  let '(qs, ts) := due_callbacks t (timers s) in
  fold_left (fun s q => performSearch_start q s) qs
    (with_now t (with_timers ts (debounceTimerRef s) s)).

Definition mark_settled (call : nat) (s : Hook) : Hook :=
  match calls s !! call with
  | Some (q, _) => with_calls (<[call := (q, true)]> (calls s)) s
  | None => s
  end.

(** The back end settles call [call]: the waiting [performSearch]
    continues.  A call that is not in flight cannot settle. *)
Definition settle (call : nat) (outcome : list SearchResult + value)
    (s : Hook) : Hook :=
  match calls s !! call with
  | Some (_, false) => snd (performSearch_resume outcome (mark_settled call s))
  | _ => s
  end.

Inductive event :=
| SetQuery (q : jsstring)
| Advance (dt : nat)
| Settle (call : nat) (outcome : list SearchResult + value).

Definition step (s : Hook) (e : event) : Hook :=
  match e with
  | SetQuery q => setQuery q s
  | Advance dt => advance dt s
  | Settle call outcome => settle call outcome s
  end.

Definition run (events : list event) (s : Hook) : Hook :=
  fold_left step events s.

(** The hook right after mounting: the initial states of [useState] and
    [useRef], and the first run of the debounce effect. *)
Definition initial : Hook :=
  debounce_effect
    {| query := []; results := []; isLoading := false; error := None;
       controllers := []; abortControllerRef := None; timers := [];
       debounceTimerRef := None; now := 0; calls := []; console := [] |}.

(** Invariants of the reachable states. *)
Fixpoint pending_count (ts : list Timer) : nat :=
  match ts with
  | [] => 0
  | t :: rest => (if pending t then 1 else 0) + pending_count rest
  end.

Record wf (s : Hook) : Prop := {
  wf_current :
    forall c, abortControllerRef s = Some c -> controllers s !! c = Some false;
  wf_calls :
    calls s <> [] -> is_Some (abortControllerRef s);
  wf_timers :
    exists ts t, timers s = ts ++ [t] /\ pending_count ts = 0 /\
                 debounceTimerRef s = Some (length ts)
}.

(** Invocations sent so far plus timers still to run. *)
Definition potential (s : Hook) : nat :=
  length (calls s) + pending_count (timers s).

(** Two [setQuery] calls with the same text, [d1] ms apart, then [d2]
    more ms. *)
Definition typed_twice (q : jsstring) (d1 d2 : nat) : list event :=
  [SetQuery q; Advance d1; SetQuery q; Advance d2].

End UseSearch.

(** ** [handleExecuteResult] (src/components/SearchBar.tsx) *)

Module SearchBar.

Import Js UseSearch.

(** The state [handleExecuteResult] works on: the search hook, the
    keyboard selection and the closing animation. *)
Record Ui := {
  hook : Hook;
  selectedIndex : Z;
  isAnimatingOut : bool;
  closeTimeouts : nat
}.

Definition with_hook (h : Hook) (ui : Ui) : Ui :=
  {| hook := h; selectedIndex := selectedIndex ui;
     isAnimatingOut := isAnimatingOut ui; closeTimeouts := closeTimeouts ui |}.

(** Run a computation of the hook inside the component. *)
Definition lift {A} (m : M Hook A) : M Ui A :=
  fun ui => let '(r, h) := m (hook ui) in (r, with_hook h ui).

(** [handleClose]: start the fade-out and schedule [onClose]. *)
Definition handleClose : M Ui unit :=
  modify (fun ui =>
    {| hook := hook ui; selectedIndex := selectedIndex ui;
       isAnimatingOut := true; closeTimeouts := S (closeTimeouts ui) |}).

Section WithBackend.

(** What [invoke('execute_result', { result })] settles with. *)
Variable execute_result : SearchResult -> unit + value.

Definition handleExecuteResult : M Ui unit :=
  let* ui := get in
  let results := UseSearch.results (hook ui) in
  if ((0 <? length results)%nat && (0 <=? selectedIndex ui)%Z &&
      (selectedIndex ui <? Z.of_nat (length results))%Z)%bool
  then
    match results !! Z.to_nat (selectedIndex ui) with
    | Some selectedResult =>
        try_catch
          (lift (executeResult (execute_result selectedResult) selectedResult) ;;
           handleClose)
          (fun error =>
             lift (modify (console_push
                     (ConsoleError (str "Failed to execute result:")
                                   (cause error)))))
    | None => ret tt
    end
  else ret tt.

End WithBackend.


End SearchBar.

(** ** The back end's merge step *)

Module Engine.

Import Js.

(** Modelled from the spec: the provider contract of section 4.1, reduced
    to what the merge reads; the providers are Rust code outside the
    available sources.  [search] is the fixed result list the provider
    returns for the query at hand. *)
Record Provider := {
  name : jsstring;
  priority : Z;
  search : list SearchResult
}.

(** Stable insertion sort, descending in [key]: an element is placed
    before the first element whose key is not larger. *)
Fixpoint insert_desc {A} (key : A -> Z) (x : A) (l : list A) : list A :=
  match l with
  | [] => [x]
  | y :: rest =>
      if (key x <? key y)%Z then y :: insert_desc key x rest
      else x :: y :: rest
  end.

Definition sort_desc {A} (key : A -> Z) (l : list A) : list A :=
  foldr (insert_desc key) [] l.

Definition descending {A} (key : A -> Z) : list A -> Prop :=
  StronglySorted (fun a b => (key b <= key a)%Z).

(** One provider's contribution: its results by descending score, each
    attributed to the provider. *)
Definition block (p : Provider) : list (Provider * SearchResult) :=
  map (pair p) (sort_desc score (search p)).

(** Modelled from the spec: the merge of section 4.3 step 6, missing from
    the sources: the providers in descending priority, each one's results
    in descending score, ties in the original order; every result keeps
    the provider it came from. *)
Definition merge_attributed (providers : list Provider)
    : list (Provider * SearchResult) :=
  flat_map block (sort_desc priority providers).

Definition merge (providers : list Provider) : list SearchResult :=
  map snd (merge_attributed providers).

(** The order the claim asks of two entries of the merged list, the first
    one earlier: priority does not increase, and inside one provider the
    score does not increase. *)
Definition in_order (a b : Provider * SearchResult) : Prop :=
  (priority (fst b) <= priority (fst a))%Z /\
  (name (fst a) = name (fst b) -> (score (snd b) <= score (snd a))%Z).

End Engine.

(** ** Concrete inputs used by the examples *)

Module Scenario.

Import Js ResultGroup UseSearch SearchBar Engine.

Definition file_result (name : string) (s : Z) : SearchResult :=
  {| id := str name; title := str name; subtitle := []; icon := None;
     type := File; score := s; metadata := [];
     action := {| action_type := OpenFile; payload := str name |} |}.

Definition results_a : list SearchResult :=
  [file_result "a.txt" 90; file_result "alpha.md" 70].

Definition results_ab : list SearchResult := [file_result "abacus.doc" 80].

(** Query ["a"] is dispatched, then query ["ab"] while the first call is
    still in flight. *)
Definition a_then_ab : list event :=
  [SetQuery (str "a"); Advance 150; SetQuery (str "ab"); Advance 150].

Definition calculator_then_file : list SearchResult :=
  [ {| id := str "1"; title := str "4"; subtitle := []; icon := None;
       type := Calculator; score := 100; metadata := [];
       action := {| action_type := CopyToClipboard; payload := str "4" |} |};
    {| id := str "2"; title := str "notes.txt"; subtitle := []; icon := None;
       type := File; score := 40; metadata := [];
       action := {| action_type := OpenFile; payload := str "notes.txt" |} |} ].


(** A window showing the results of ["a"], the first one selected. *)
Definition showing_results : Ui :=
  {| hook := run [SetQuery (str "a"); Advance 150; Settle 0 (inl results_a)]
               initial;
     selectedIndex := 0; isAnimatingOut := false; closeTimeouts := 0 |}.


Definition calculator : Provider :=
  {| name := str "Calculator"; priority := 90;
     search :=
       [ {| id := str "calc"; title := str "4"; subtitle := str "2+2";
            icon := None; type := Calculator; score := 100; metadata := [];
            action := {| action_type := CopyToClipboard; payload := str "4" |} |} ] |}.

Definition webSearch : Provider :=
  {| name := str "WebSearch"; priority := 1;
     search :=
       [ {| id := str "web"; title := str "search the web"; subtitle := str "2+2";
            icon := None; type := WebSearch; score := 1; metadata := [];
            action := {| action_type := OpenUrl; payload := str "2+2" |} |} ] |}.

End Scenario.

(** ** The rows of the result list (src/components/ResultGroup.tsx) *)

Module ResultRows.

Import Js ResultGroup.

(** [interface FlattenedItem]: a header carries its title, a result row
    its result and the index the selection is compared with. *)
Inductive FlattenedItem :=
| HeaderItem (title : jsstring)
| ResultRow (data : SearchResult) (absoluteIndex : nat)
| SeparatorItem.

(** [group.results.forEach((result, resultIndex) => ...)] *)
Fixpoint result_rows (startIndex resultIndex : nat)
    (results : list SearchResult) : list FlattenedItem :=
  match results with
  | [] => []
  | result :: rest =>
      ResultRow result (startIndex + resultIndex)
      :: result_rows startIndex (S resultIndex) rest
  end.

(** [groupedResults.forEach((group, groupIndex) => ...)], with the
    length of [groupedResults] in [total]. *)
Fixpoint flatten_groups (total groupIndex : nat)
    (groups : list GroupedResults) : list FlattenedItem :=
  match groups with
  | [] => []
  | group :: rest =>
      (HeaderItem (g_title group)
       :: result_rows (startIndex group) 0 (g_results group))
      ++ (if groupIndex <? total - 1 then [SeparatorItem] else [])
      ++ flatten_groups total (S groupIndex) rest
  end.

Definition flattenedItems (groups : list GroupedResults)
    : list FlattenedItem :=
  flatten_groups (length groups) 0 groups.

Definition ITEM_HEIGHT : nat := 56.
Definition HEADER_HEIGHT : nat := 32.
Definition SEPARATOR_HEIGHT : nat := 9.
Definition MAX_HEIGHT : nat := 480.

(** [getItemSize], on the item found at the index. *)
Definition getItemSize (item : FlattenedItem) : nat :=
  match item with
  | HeaderItem _ => HEADER_HEIGHT
  | SeparatorItem => SEPARATOR_HEIGHT
  | ResultRow _ _ => ITEM_HEIGHT
  end.

(** [flattenedItems.reduce((sum, _item, index) => sum + getItemSize(index), 0)] *)
Definition totalHeight (items : list FlattenedItem) : nat :=
  fold_left (fun sum item => sum + getItemSize item) items 0.

Definition listHeight (items : list FlattenedItem) : nat :=
  Nat.min (totalHeight items) MAX_HEIGHT.

(** The test of the [findIndex] call in the scroll effect. *)
Definition is_selected_row (selectedIndex : Z) (item : FlattenedItem) : bool :=
  match item with
  | ResultRow _ absoluteIndex => (Z.of_nat absoluteIndex =? selectedIndex)%Z
  | _ => false
  end.

(** [Array.prototype.findIndex]: the first index whose element passes the
    test, or -1. *)
Fixpoint findIndex {A} (test : A -> bool) (l : list A) : Z :=
  match l with
  | [] => (-1)%Z
  | x :: rest =>
      if test x then 0%Z
      else
        let i := findIndex test rest in
        if (i <? 0)%Z then (-1)%Z else (i + 1)%Z
  end.

(** The scroll effect, lines 162-172: the row passed to [scrollToRow], if
    any (the list is mounted). *)
Definition scroll_target (selectedIndex : Z) (items : list FlattenedItem)
    : option nat :=
  if (0 <=? selectedIndex)%Z then
    let flatIndex := findIndex (is_selected_row selectedIndex) items in
    if (0 <=? flatIndex)%Z then Some (Z.to_nat flatIndex) else None
  else None.

(** The result rows of a list of items, in order. *)
Fixpoint rows_of (items : list FlattenedItem) : list (SearchResult * nat) :=
  match items with
  | [] => []
  | ResultRow data absoluteIndex :: rest => (data, absoluteIndex) :: rows_of rest
  | _ :: rest => rows_of rest
  end.

(** The results paired with their positions [from], [from + 1], ... *)
Fixpoint numbered (from : nat) (results : list SearchResult)
    : list (SearchResult * nat) :=
  match results with
  | [] => []
  | r :: rest => (r, from) :: numbered (S from) rest
  end.

(** The place of a type in [typeOrder]. *)
Definition rank (ty : ResultType) : nat :=
  match ty with
  | RecentFile => 0 | File => 1 | Application => 2 | QuickAction => 3
  | Calculator => 4 | Bookmark => 5 | Clipboard => 6 | WebSearch => 7
  end.

(** A list in which the types appear in the order of [typeOrder]. *)
Fixpoint ranked_from (lo : nat) (results : list SearchResult) : Prop :=
  match results with
  | [] => True
  | r :: rest => lo <= rank (type r) /\ ranked_from (rank (type r)) rest
  end.

(** Each group starts where the previous one ends. *)
Fixpoint starts_at (k : nat) (groups : list GroupedResults) : Prop :=
  match groups with
  | [] => True
  | g :: rest => startIndex g = k /\ starts_at (k + length (g_results g)) rest
  end.

End ResultRows.

(** ** One result row (src/components/ResultItem.tsx and the [Row] of
    src/components/ResultGroup.tsx) *)

Module ResultItem.

Import Js Highlight.

(** [getBadgeText] *)
Definition getBadgeText (t : ResultType) : jsstring :=
  match t with
  | File => str "File"
  | Application => str "App"
  | QuickAction => str "Action"
  | Calculator => str "Calc"
  | Clipboard => str "Clip"
  | Bookmark => str "Bookmark"
  | RecentFile => str "Recent"
  | WebSearch => str "Web"
  end.

(** JavaScript truthiness of a React node: [null], [undefined] and the
    empty string are falsy, elements are truthy. *)
Definition truthy (node : ReactNode) : bool :=
  match node with
  | RNull => false
  | RText [] => false
  | RText (_ :: _) => true
  | RFragment _ => true
  end.

(** The spans of a node, for a fragment; nothing else has spans. *)
Definition spans_of (node : ReactNode) : list Span :=
  match node with
  | RFragment elements => elements
  | _ => []
  end.

(** The keys given so far all carry a loop counter below [i]. *)
Definition key_below (i : nat) (k : SpanKey) : Prop :=
  match k with
  | KeyText j | KeyHighlight j => j < i
  | KeyTextEnd => False
  end.

(** The texts of the highlight spans and of the plain spans, in order. *)
Definition highlighted_contents (elements : list Span) : list jsstring :=
  map content (List.filter highlighted elements).

Definition plain_contents (elements : list Span) : list jsstring :=
  map content (List.filter (fun sp => negb (highlighted sp)) elements).

Section WithFuzzysort.

Variable single : jsstring -> jsstring -> option FuzzyResult.

(** [Row]: [query ? highlightText(result.title, query) : undefined];
    [None] stands for [undefined], as it does for an absent [query]. *)
Definition highlightedTitle (query : option jsstring) (result : SearchResult)
    : option ReactNode :=
  match query with
  | None => None
  | Some [] => None
  | Some q => Some (highlightText single (title result) q)
  end.

(** [ResultItem]: [{highlightedTitle || result.title}] *)
Definition title_node (highlighted : option ReactNode) (result : SearchResult)
    : ReactNode :=
  match highlighted with
  | Some node => if truthy node then node else RText (title result)
  | None => RText (title result)
  end.

(** The title of a row as [ResultGroup] renders it. *)
Definition row_title (query : option jsstring) (result : SearchResult)
    : ReactNode :=
  title_node (highlightedTitle query result) result.

(** What the code relies on from fuzzysort: a match is on the text that
    was searched and its indexes are increasing positions of that text. *)
Definition fuzzysort_contract : Prop :=
  forall query text r,
    single query text = Some r -> target r = text /\ valid_indexes r.

End WithFuzzysort.

(** A matcher that finds the query as a prefix of the text, comparing
    code units. *)
Fixpoint is_prefix (q t : jsstring) : bool :=
  match q, t with
  | [], _ => true
  | c :: q', d :: t' => (c =? d)%N && is_prefix q' t'
  | _ :: _, [] => false
  end.

Definition prefix_single (query text : jsstring) : option FuzzyResult :=
  if is_prefix query text
  then Some {| target := text; indexes := seq 0 (length query) |}
  else None.

End ResultItem.

(** ** Key handling ([useKeyboard], src/hooks/useKeyboard.ts) *)

Module KeyHandling.

Import Js.


(** Calling an async function without awaiting it: a rejection of its
    promise does not reach the caller. *)
Definition detach {S} (m : M S unit) : M S unit :=
  try_catch m (fun _ => ret tt).

End KeyHandling.

(** ** The search bar as a whole (src/components/SearchBar.tsx) *)

Module SearchBarView.

Import Js UseSearch SearchBar KeyHandling.

Definition with_selectedIndex (i : Z) (ui : Ui) : Ui :=
  {| hook := hook ui; selectedIndex := i;
     isAnimatingOut := isAnimatingOut ui; closeTimeouts := closeTimeouts ui |}.

(** [useKeyboardSelection(results.length)]: the item count of the
    current render. *)
Definition itemCount (ui : Ui) : Z :=
  Z.of_nat (length (results (hook ui))).

Definition moveUp : M Ui unit :=
  modify (fun ui =>
    with_selectedIndex (UseKeyboard.moveUp (itemCount ui) (selectedIndex ui)) ui).

Definition moveDown : M Ui unit :=
  modify (fun ui =>
    with_selectedIndex (UseKeyboard.moveDown (itemCount ui) (selectedIndex ui)) ui).

Definition resetSelection : M Ui unit :=
  modify (with_selectedIndex (UseKeyboard.resetSelection 0)).




Section WithBackend.

Variable execute_result : SearchResult -> unit + value.


(** The props [SearchBar] passes to [ResultGroup]: [onSelectResult] has
    an empty body, and [handleExecuteResult] takes no parameter, so the
    index it is called with is dropped. *)
Definition onSelectResult (index : nat) : M Ui unit := ret tt.

Definition onExecuteResult (index : nat) : M Ui unit :=
  detach (handleExecuteResult execute_result).

(** [ResultItem.handleClick] on the row with this [absoluteIndex]:
    [onSelect(); onExecute()] (the ripple only touches the DOM). *)
Definition handleClick (absoluteIndex : nat) : M Ui unit :=
  onSelectResult absoluteIndex ;; onExecuteResult absoluteIndex.

(** [ResultItem.handleMouseEnter] *)
Definition handleMouseEnter (absoluteIndex : nat) : M Ui unit :=
  onSelectResult absoluteIndex.





End WithBackend.

(** The search bar when the window opens. *)
Definition ui_initial : Ui :=
  {| hook := initial; selectedIndex := 0; isAnimatingOut := false;
     closeTimeouts := 0 |}.


(** JavaScript truthiness of a string. *)
Definition nonempty (s : jsstring) : bool :=
  match s with [] => false | _ :: _ => true end.

(** What the results area renders, lines 141-169. *)
Record Panels := {
  skeleton : bool;
  noResults : bool;
  resultGroup : bool;
  typeToSearch : bool
}.

Definition panels (h : Hook) : Panels :=
  {| skeleton := isLoading h;
     noResults := negb (isLoading h) && nonempty (query h)
                  && (length (results h) =? 0);
     resultGroup := negb (isLoading h) && (0 <? length (results h));
     typeToSearch := negb (isLoading h) && negb (nonempty (query h)) |}.

End SearchBarView.

(** ** Runs of the search hook *)

Module SearchTraces.

Import Js UseSearch.

(** The user types: each keystroke sets a new text and is followed by a
    pause of some milliseconds. *)
Definition typing (keys : list (jsstring * nat)) : list event :=
  flat_map (fun k => [SetQuery (fst k); Advance (snd k)]) keys.

(** Every keystroke changes the text, and every pause is shorter than the
    debounce delay. *)
Fixpoint changes (previous : jsstring) (keys : list (jsstring * nat)) : Prop :=
  match keys with
  | [] => True
  | k :: rest =>
      fst k <> previous /\ snd k < DEBOUNCE_DELAY /\ changes (fst k) rest
  end.

(** What [performSearch] sends for a query. *)
Definition sent_for (q : jsstring) : list jsstring :=
  match trim q with
  | [] => []
  | _ :: _ => [q]
  end.

(** Timers that will send a request when they run. *)
Fixpoint armed_count (ts : list Timer) : nat :=
  match ts with
  | [] => 0
  | t :: rest =>
      (if pending t then length (sent_for (callback_query t)) else 0)
      + armed_count rest
  end.

(** The number of [setQuery] calls among the events. *)
Fixpoint count_setQuery (events : list event) : nat :=
  match events with
  | [] => 0
  | SetQuery _ :: rest => S (count_setQuery rest)
  | _ :: rest => count_setQuery rest
  end.

(** The last timer is running, was set [elapsed] ms ago and will search
    for the current query. *)
Definition armed (elapsed : nat) (s : Hook) : Prop :=
  exists ts t,
    timers s = ts ++ [t] /\ pending_count ts = 0 /\
    debounceTimerRef s = Some (length ts) /\
    pending t = true /\ callback_query t = query s /\
    deadline t + elapsed = now s + DEBOUNCE_DELAY.

(** Every controller but the one in the ref has been aborted. *)
Definition one_live_controller (s : Hook) : Prop :=
  (controllers s = [] /\ abortControllerRef s = None) \/
  (exists n, controllers s = replicate n true ++ [false] /\
             abortControllerRef s = Some n).

End SearchTraces.

(** ** [useWindowVisibility] (src/hooks/useWindowVisibility.ts) *)

Module UseWindowVisibility.

(** The Tauri commands the hook invokes; a rejected invocation is only
    written to the console. *)
Inductive Command := ShowWindow | HideWindow.

Record Window := {
  isVisible : bool;
  sent : list Command
}.

(** The effect that depends on [isVisible], lines 20-30. *)
Definition visibility_effect (w : Window) : Window :=
  {| isVisible := isVisible w;
     sent := sent w ++ [if isVisible w then ShowWindow else HideWindow] |}.

(** [setIsVisible(updater)]: a state that does not change causes no
    render and no effect. *)
Definition setIsVisible (updater : bool -> bool) (w : Window) : Window :=
  let next := updater (isVisible w) in
  if Bool.eqb next (isVisible w) then w
  else visibility_effect {| isVisible := next; sent := sent w |}.

Inductive event :=
| HotkeyPressed
| ShowWindowCalled
| HideWindowCalled
| ToggleWindowCalled.

Definition step (w : Window) (e : event) : Window :=
  match e with
  | HotkeyPressed => setIsVisible negb w
  | ShowWindowCalled => setIsVisible (fun _ => true) w
  | HideWindowCalled => setIsVisible (fun _ => false) w
  | ToggleWindowCalled => setIsVisible negb w
  end.

Definition run (events : list event) (w : Window) : Window :=
  fold_left step events w.

(** The hook after mounting: [useState(true)] and the first run of the
    effect. *)
Definition initial : Window :=
  visibility_effect {| isVisible := true; sent := [] |}.

(** No command is sent twice in a row. *)
Fixpoint alternating (cs : list Command) : Prop :=
  match cs with
  | a :: rest =>
      match rest with
      | b :: _ => a <> b /\ alternating rest
      | [] => True
      end
  | [] => True
  end.

(** The command that asks for a visibility. *)
Definition command_for (visible : bool) : Command :=
  if visible then ShowWindow else HideWindow.

(** The commands sent so far end with the one for the current state,
    start with [show_window] and alternate. *)
Definition in_step (w : Window) : Prop :=
  exists before,
    sent w = before ++ [command_for (isVisible w)] /\ alternating (sent w) /\
    hd_error (sent w) = Some ShowWindow.

End UseWindowVisibility.

(** ** [useUpdater] and [UpdateNotification]
    (src/hooks/useUpdater.ts, src/components/UpdateNotification.tsx) *)

Module UseUpdater.

Import Js.

(** [String(error)]: an [Error] prints as its name and message, a string
    as itself. *)
Definition to_String (err : value) : jsstring :=
  match err with
  | JsError [] => str "Error"
  | JsError m => str "Error: " ++ m
  | JsOther p => p
  end.

Record UpdaterState := {
  updateAvailable : bool;
  updateVersion : option jsstring;
  updateInstalled : bool;
  updateError : option jsstring;
  isChecking : bool
}.

Definition initial : UpdaterState :=
  {| updateAvailable := false; updateVersion := None;
     updateInstalled := false; updateError := None; isChecking := false |}.

(** The listener of [update-available]. *)
Definition on_update_available (payload : jsstring) (s : UpdaterState)
    : UpdaterState :=
  {| updateAvailable := true; updateVersion := Some payload;
     updateInstalled := updateInstalled s; updateError := updateError s;
     isChecking := isChecking s |}.

(** The listener of [update-installed]. *)
Definition on_update_installed (s : UpdaterState) : UpdaterState :=
  {| updateAvailable := false; updateVersion := updateVersion s;
     updateInstalled := true; updateError := updateError s;
     isChecking := isChecking s |}.

(** The listener of [update-error]. *)
Definition on_update_error (payload : jsstring) (s : UpdaterState)
    : UpdaterState :=
  {| updateAvailable := false; updateVersion := updateVersion s;
     updateInstalled := updateInstalled s; updateError := Some payload;
     isChecking := isChecking s |}.

(** [checkForUpdates] up to its [await]. *)
Definition checkForUpdates_start (s : UpdaterState) : UpdaterState :=
  {| updateAvailable := updateAvailable s; updateVersion := updateVersion s;
     updateInstalled := updateInstalled s; updateError := None;
     isChecking := true |}.

Definition set_checked (err : option jsstring) (s : UpdaterState)
    : UpdaterState :=
  {| updateAvailable := updateAvailable s; updateVersion := updateVersion s;
     updateInstalled := updateInstalled s;
     updateError := match err with Some e => Some e | None => updateError s end;
     isChecking := false |}.

(** [checkForUpdates] from the [await] on: it returns the result, or
    records the failure and throws it again. *)
Definition checkForUpdates_resume (outcome : jsstring + value)
    : M UpdaterState jsstring :=
  try_catch
    (let* result := UseSearch.await outcome in
     modify (set_checked None) ;; ret result)
    (fun error =>
       modify (set_checked (Some (to_String error))) ;; throw error).

Definition dismissUpdate (s : UpdaterState) : UpdaterState :=
  {| updateAvailable := false; updateVersion := None;
     updateInstalled := false; updateError := None;
     isChecking := isChecking s |}.

Inductive event :=
| UpdateAvailable (version : jsstring)
| UpdateInstalled
| UpdateFailed (message : jsstring)
| CheckStarted
| CheckSettled (outcome : jsstring + value)
| Dismissed.

Definition step (s : UpdaterState) (e : event) : UpdaterState :=
  match e with
  | UpdateAvailable v => on_update_available v s
  | UpdateInstalled => on_update_installed s
  | UpdateFailed m => on_update_error m s
  | CheckStarted => checkForUpdates_start s
  | CheckSettled outcome => snd (checkForUpdates_resume outcome s)
  | Dismissed => dismissUpdate s
  end.

Definition run (events : list event) (s : UpdaterState) : UpdaterState :=
  fold_left step events s.

(** The banners of [UpdateNotification], top to bottom; [None] when the
    component renders [null]. The "Update Available" banner shows the
    version. *)
Inductive Banner :=
| AvailableBanner (version : option jsstring)
| InstalledBanner
| FailedBanner.

Definition truthy_string (o : option jsstring) : bool :=
  match o with
  | Some (_ :: _) => true
  | _ => false
  end.

Definition UpdateNotification (s : UpdaterState) : option (list Banner) :=
  if negb (updateAvailable s) && negb (updateInstalled s)
     && negb (truthy_string (updateError s))
  then None
  else Some
         ((if updateAvailable s then [AvailableBanner (updateVersion s)] else [])
          ++ (if updateInstalled s then [InstalledBanner] else [])
          ++ (if truthy_string (updateError s) then [FailedBanner] else [])).

End UseUpdater.

(** ** The settings dialog (src/components/Settings.tsx, src/types) *)

Module Settings.

Import Js.

Inductive Theme := Light | Dark | System.

Record EnabledProviders := {
  files : bool;
  applications : bool;
  quick_actions : bool;
  calculator : bool;
  clipboard : bool;
  bookmarks : bool;
  recent_files : bool
}.

Record AppSettings := {
  hotkey : jsstring;
  theme : Theme;
  max_results : Z;
  enabled_providers : EnabledProviders;
  search_delay : Z;
  start_with_windows : bool
}.

(** [keyof AppSettings['enabled_providers']] *)
Inductive ProviderKey :=
| KFiles | KApplications | KQuickActions | KCalculator
| KClipboard | KBookmarks | KRecentFiles.

Definition provider (k : ProviderKey) (p : EnabledProviders) : bool :=
  match k with
  | KFiles => files p
  | KApplications => applications p
  | KQuickActions => quick_actions p
  | KCalculator => calculator p
  | KClipboard => clipboard p
  | KBookmarks => bookmarks p
  | KRecentFiles => recent_files p
  end.

Definition decide_eq_key (a b : ProviderKey) : {a = b} + {a <> b}.
Proof. decide equality. Defined.

(** [{ ...settings.enabled_providers, [provider]: enabled }] *)
Definition with_provider (k : ProviderKey) (enabled : bool)
    (p : EnabledProviders) : EnabledProviders :=
  {| files := if k is KFiles then enabled else files p;
     applications := if k is KApplications then enabled else applications p;
     quick_actions := if k is KQuickActions then enabled else quick_actions p;
     calculator := if k is KCalculator then enabled else calculator p;
     clipboard := if k is KClipboard then enabled else clipboard p;
     bookmarks := if k is KBookmarks then enabled else bookmarks p;
     recent_files := if k is KRecentFiles then enabled else recent_files p |}.

(** A key of [AppSettings] together with a value of its type. *)
Inductive SettingUpdate :=
| SetHotkey (v : jsstring)
| SetTheme (v : Theme)
| SetMaxResults (v : Z)
| SetEnabledProviders (v : EnabledProviders)
| SetSearchDelay (v : Z)
| SetStartWithWindows (v : bool).

(** [{ ...settings, [key]: value }] *)
Definition with_setting (u : SettingUpdate) (s : AppSettings) : AppSettings :=
  {| hotkey := if u is SetHotkey v then v else hotkey s;
     theme := if u is SetTheme v then v else theme s;
     max_results := if u is SetMaxResults v then v else max_results s;
     enabled_providers :=
       if u is SetEnabledProviders v then v else enabled_providers s;
     search_delay := if u is SetSearchDelay v then v else search_delay s;
     start_with_windows :=
       if u is SetStartWithWindows v then v else start_with_windows s |}.

(** The state of the dialog, with what it did to its surroundings: the
    settings sent to [update_settings], the calls of [onClose] and the
    console. *)
Record Dialog := {
  settings : option AppSettings;
  loading : bool;
  saving : bool;
  error : option jsstring;
  autoStartStatus : option bool;
  submitted : list AppSettings;
  closed : nat;
  console : list UseSearch.LogEntry
}.

Definition setSettings (v : option AppSettings) (d : Dialog) : Dialog :=
  {| settings := v; loading := loading d; saving := saving d;
     error := error d; autoStartStatus := autoStartStatus d;
     submitted := submitted d; closed := closed d; console := console d |}.

Definition setLoading (v : bool) (d : Dialog) : Dialog :=
  {| settings := settings d; loading := v; saving := saving d;
     error := error d; autoStartStatus := autoStartStatus d;
     submitted := submitted d; closed := closed d; console := console d |}.

Definition setSaving (v : bool) (d : Dialog) : Dialog :=
  {| settings := settings d; loading := loading d; saving := v;
     error := error d; autoStartStatus := autoStartStatus d;
     submitted := submitted d; closed := closed d; console := console d |}.

Definition setError (v : option jsstring) (d : Dialog) : Dialog :=
  {| settings := settings d; loading := loading d; saving := saving d;
     error := v; autoStartStatus := autoStartStatus d;
     submitted := submitted d; closed := closed d; console := console d |}.

Definition setAutoStartStatus (v : option bool) (d : Dialog) : Dialog :=
  {| settings := settings d; loading := loading d; saving := saving d;
     error := error d; autoStartStatus := v;
     submitted := submitted d; closed := closed d; console := console d |}.

Definition submit (v : AppSettings) (d : Dialog) : Dialog :=
  {| settings := settings d; loading := loading d; saving := saving d;
     error := error d; autoStartStatus := autoStartStatus d;
     submitted := submitted d ++ [v]; closed := closed d;
     console := console d |}.

Definition onClose (d : Dialog) : Dialog :=
  {| settings := settings d; loading := loading d; saving := saving d;
     error := error d; autoStartStatus := autoStartStatus d;
     submitted := submitted d; closed := S (closed d);
     console := console d |}.

Definition console_error (label detail : jsstring) (d : Dialog) : Dialog :=
  {| settings := settings d; loading := loading d; saving := saving d;
     error := error d; autoStartStatus := autoStartStatus d;
     submitted := submitted d; closed := closed d;
     console := console d ++ [UseSearch.ConsoleError label detail] |}.

(** [loadSettings], given what [invoke('get_settings')] settles with. *)
Definition loadSettings (outcome : AppSettings + value) : M Dialog unit :=
  try_finally
    (try_catch
       (modify (setLoading true) ;;
        modify (setError None) ;;
        let* loadedSettings := UseSearch.await outcome in
        modify (setSettings (Some loadedSettings)))
       (fun err =>
          modify (setError
                    (Some (str "Failed to load settings: "
                           ++ UseUpdater.to_String err))) ;;
          modify (console_error (str "Failed to load settings:")
                                (UseUpdater.to_String err))))
    (modify (setLoading false)).

(** [checkAutoStartStatus], given what [invoke('is_auto_start_enabled')]
    settles with. *)
Definition checkAutoStartStatus (outcome : bool + value) : M Dialog unit :=
  try_catch
    (let* status := UseSearch.await outcome in
     modify (setAutoStartStatus (Some status)))
    (fun err =>
       modify (console_error (str "Failed to check auto-start status:")
                             (UseUpdater.to_String err)) ;;
       modify (setAutoStartStatus None)).

(** [saveSettings], given what the two invocations settle with. *)
Definition saveSettings (update_outcome : unit + value)
    (auto_start_outcome : bool + value) : M Dialog unit :=
  let* d := get in
  match settings d with
  | None => ret tt
  | Some current =>
      try_finally
        (try_catch
           (modify (setSaving true) ;;
            modify (setError None) ;;
            modify (submit current) ;;
            let* _ := UseSearch.await update_outcome in
            checkAutoStartStatus auto_start_outcome ;;
            modify onClose)
           (fun err =>
              modify (setError
                        (Some (str "Failed to save settings: "
                               ++ UseUpdater.to_String err))) ;;
              modify (console_error (str "Failed to save settings:")
                                    (UseUpdater.to_String err))))
        (modify (setSaving false))
  end.

(** [updateSetting] *)
Definition updateSetting (u : SettingUpdate) (d : Dialog) : Dialog :=
  match settings d with
  | Some s => setSettings (Some (with_setting u s)) d
  | None => d
  end.

(** [updateProvider] *)
Definition updateProvider (k : ProviderKey) (enabled : bool) (d : Dialog)
    : Dialog :=
  match settings d with
  | Some s =>
      setSettings
        (Some (with_setting
                 (SetEnabledProviders
                    (with_provider k enabled (enabled_providers s))) s)) d
  | None => d
  end.

(** What the body of the dialog shows, lines 108-231. *)
Inductive Content := LoadingMessage | ErrorMessage (text : jsstring)
                   | Form (s : AppSettings) | Blank.

Definition content (d : Dialog) : Content :=
  if loading d then LoadingMessage
  else match error d with
       | Some (c :: rest) => ErrorMessage (c :: rest)
       | _ => match settings d with
              | Some s => Form s
              | None => Blank
              end
       end.

(** The "Save Changes" button: [disabled={saving || !settings}]. *)
Definition save_disabled (d : Dialog) : bool :=
  saving d || match settings d with Some _ => false | None => true end.

(** The dialog before it is opened for the first time. *)
Definition initial : Dialog :=
  {| settings := None; loading := true; saving := false; error := None;
     autoStartStatus := None; submitted := []; closed := 0; console := [] |}.

End Settings.

(** ** More concrete inputs *)

Module Scenario2.

Import Js UseSearch SearchBar SearchBarView.

(** A back end that executes every result. *)
Definition accepts_all : SearchResult -> unit + value := fun _ => inl tt.


End Scenario2.

(** * Proofs *)

(** ** Keyboard selection *)

Section KeyboardSelection.

Import UseKeyboard.
Local Open Scope Z_scope.

Lemma effect_in_range itemCount i :
  1 <= itemCount -> 0 <= i -> in_range itemCount (effect itemCount i).
Proof.
  intros Hn Hi. unfold in_range, effect.
  destruct (Z.eqb_spec itemCount 0) as [->|_]; [lia|].
  destruct (Z.geb_spec i itemCount); lia.
Qed.

Lemma effect_fixes_in_range itemCount i :
  in_range itemCount i -> effect itemCount i = i.
Proof.
  unfold in_range, effect. intros Hi.
  destruct (Z.eqb_spec itemCount 0) as [->|_]; [lia|].
  destruct (Z.geb_spec i itemCount); lia.
Qed.

(** The effect settles in one run: the render it triggers changes nothing
    more. *)
Lemma effect_idempotent itemCount i :
  effect itemCount (effect itemCount i) = effect itemCount i.
Proof.
  unfold effect.
  destruct (Z.eqb_spec itemCount 0) as [->|Hn]; [reflexivity|].
  destruct (Z.geb_spec i itemCount) as [Hge|Hlt].
  - destruct (Z.geb_spec (Z.max 0 (itemCount - 1)) itemCount); lia.
  - destruct (Z.geb_spec i itemCount); lia.
Qed.

Lemma apply_call_in_range itemCount c i :
  1 <= itemCount -> in_range itemCount i ->
  in_range itemCount (apply_call itemCount c i).
Proof.
  unfold in_range. intros Hn Hi.
  destruct c; cbn [apply_call]; unfold moveUp, moveDown, resetSelection.
  - destruct (Z.eqb_spec itemCount 0); [lia|].
    destruct (Z.leb_spec i 0); lia.
  - destruct (Z.eqb_spec itemCount 0); [lia|].
    destruct (Z.geb_spec i (itemCount - 1)); lia.
  - lia.
Qed.

Lemma step_in_range itemCount c i :
  1 <= itemCount -> in_range itemCount i -> in_range itemCount (step itemCount c i).
Proof.
  intros Hn Hi. unfold step.
  rewrite effect_fixes_in_range; apply apply_call_in_range; assumption.
Qed.

Lemma run_in_range itemCount calls i :
  1 <= itemCount -> in_range itemCount i -> in_range itemCount (run itemCount calls i).
Proof.
  intros Hn. revert i.
  induction calls as [|c calls IH]; intros i Hi; [exact Hi|].
  apply IH, step_in_range; assumption.
Qed.

Lemma step_empty_list c i : step 0 c i = 0.
Proof. destruct c; reflexivity. Qed.

(** C9. With at least one item, [selectedIndex] stays inside
    [0 .. itemCount - 1] under every sequence of [moveUp], [moveDown] and
    [resetSelection] calls, starting from the mounted hook (any
    non-negative [initialIndex], the default 0 among them); [moveDown]
    wraps from the last index to 0 and [moveUp] from 0 to the last index;
    with no items every call leaves the index at 0. *)
Theorem selection_stays_in_range_and_wraps :
  forall (itemCount initialIndex : Z) (calls : list call),
    1 <= itemCount -> 0 <= initialIndex ->
    (0 <= run itemCount calls (mount itemCount initialIndex) <= itemCount - 1) /\
    step itemCount MoveDown (itemCount - 1) = 0 /\
    step itemCount MoveUp 0 = itemCount - 1 /\
    (forall c i, step 0 c i = 0) /\
    (forall cs i, run 0 cs (mount 0 i) = 0).
Proof.
  intros itemCount initialIndex calls Hn Hi.
  split; [|split; [|split; [|split]]].
  - apply run_in_range; [assumption|].
    apply effect_in_range; assumption.
  - unfold step, apply_call, moveDown, effect.
    destruct (Z.eqb_spec itemCount 0); [lia|].
    destruct (Z.geb_spec (itemCount - 1) (itemCount - 1)); [|lia].
    destruct (Z.geb_spec 0 itemCount); [lia|reflexivity].
  - unfold step, apply_call, moveUp, effect.
    destruct (Z.eqb_spec itemCount 0); [lia|]. cbn [Z.leb Z.compare].
    destruct (Z.geb_spec (itemCount - 1) itemCount); [lia|reflexivity].
  - exact step_empty_list.
  - intros cs. induction cs as [|c cs IH]; intros i; [reflexivity|].
    cbn [run fold_left]. rewrite step_empty_list.
    exact (IH 0).
Qed.

Lemma selection_stays_in_range_and_wraps_witness :
  (0 <= run 3 [MoveDown; MoveDown; MoveDown; MoveUp; ResetSelection; MoveUp]
          (mount 3 0) <= 3 - 1) /\
  step 3 MoveDown (3 - 1) = 0 /\
  step 3 MoveUp 0 = 3 - 1 /\
  (forall c i, step 0 c i = 0) /\
  (forall cs i, run 0 cs (mount 0 i) = 0).
Proof.
  apply (selection_stays_in_range_and_wraps 3 0); lia.
Defined.

End KeyboardSelection.

(** ** Highlighting *)

Section Highlighting.

Import Js Highlight.

Lemma marks_fragment_app els1 els2 :
  marks (RFragment (els1 ++ els2)) =
  marks (RFragment els1) ++ marks (RFragment els2).
Proof. cbn [marks]. apply flat_map_app. Qed.

Lemma mark_from_app pos idxs (a b : jsstring) :
  mark_from pos idxs (a ++ b) =
  mark_from pos idxs a ++ mark_from (pos + length a) idxs b.
Proof.
  revert pos. induction a as [|c a IH]; intros pos; cbn [mark_from app length].
  - by rewrite Nat.add_0_r.
  - rewrite IH. do 3 f_equal. lia.
Qed.

(** Positions below every match index are plain. *)
Lemma mark_from_plain pos idxs (a : jsstring) :
  Forall (fun i => pos + length a <= i) idxs ->
  mark_from pos idxs a = map (fun c => (c, false)) a.
Proof.
  revert pos. induction a as [|c a IH]; intros pos Hall; cbn [mark_from map length];
    [reflexivity|].
  rewrite bool_decide_eq_false_2.
  - f_equal. apply IH. eapply Forall_impl; [exact Hall|].
    cbn [length]. intros i Hi. cbn beta in Hi |- *. lia.
  - intros Hin. rewrite Forall_forall in Hall.
    specialize (Hall _ Hin). cbn [length] in Hall. lia.
Qed.

(** Dropping a match index that lies to the left does not change the
    marking of what follows. *)
Lemma mark_from_skip pos index rest (a : jsstring) :
  index < pos ->
  mark_from pos (index :: rest) a = mark_from pos rest a.
Proof.
  revert pos. induction a as [|c a IH]; intros pos Hlt; cbn [mark_from];
    [reflexivity|].
  rewrite IH by lia. do 2 f_equal.
  apply bool_decide_ext. rewrite elem_of_cons. split; [|tauto].
  intros [->|H]; [lia|exact H].
Qed.

Lemma increasing_from_lower lo idxs :
  increasing_from lo idxs -> Forall (fun i => lo <= i) idxs.
Proof.
  revert lo. induction idxs as [|i rest IH]; intros lo H; [constructor|].
  destruct H as [Hlo Hrest]. constructor; [exact Hlo|].
  eapply Forall_impl; [apply IH, Hrest|]. cbn beta. intros; lia.
Qed.

Lemma substring_take_drop (text : jsstring) a b :
  a <= b -> b <= length text ->
  substring text a b = take (b - a) (drop a text).
Proof.
  intros Hab Hb. unfold substring.
  rewrite (Nat.min_l a) by lia. rewrite (Nat.min_l b) by lia.
  rewrite Nat.max_r by lia. rewrite Nat.min_l by lia. reflexivity.
Qed.

(** The piece of the text between [lastIndex] and the next match. *)
Lemma drop_split (text : jsstring) last index c :
  last <= index -> text !! index = Some c ->
  drop last text = take (index - last) (drop last text) ++ c :: drop (S index) text.
Proof.
  intros Hle Hc.
  rewrite <- (take_drop (index - last) (drop last text)) at 1.
  f_equal. rewrite drop_drop.
  replace (last + (index - last)) with index by lia.
  apply drop_S. exact Hc.
Qed.

(** The loop invariant of [indexes.forEach]: what has been emitted marks
    the text up to [lastIndex]. *)
Lemma forEach_index_marks (text : jsstring) idxs :
  forall i elements last,
    increasing_from last idxs ->
    Forall (fun j => j < length text) idxs ->
    last <= length text ->
    let '(elements', last') := forEach_index text idxs i elements last in
    last' <= length text /\
    marks (RFragment elements') ++ map (fun c => (c, false)) (drop last' text) =
    marks (RFragment elements) ++ mark_from last idxs (drop last text).
Proof.
  induction idxs as [|index rest IH]; intros i elements last Hinc Hlt Hlast.
  - cbn [forEach_index]. split; [exact Hlast|]. f_equal.
    symmetry. apply mark_from_plain. constructor.
  - destruct Hinc as [Hle Hinc]. inversion Hlt as [|? ? Hidx Hrest]; subst.
    destruct (lookup_lt_is_Some_2 text index Hidx) as [c Hc].
    cbn [forEach_index].
    match goal with
    | |- context [forEach_index text rest (S i) ?els (index + 1)] =>
        specialize (IH (S i) els (index + 1))
    end.
    replace (index + 1) with (S index) in * by lia.
    specialize (IH Hinc Hrest ltac:(lia)).
    destruct (forEach_index text rest (S i) _ (S index)) as [elements' last'].
    destruct IH as [Hbound IH]. split; [exact Hbound|].
    rewrite IH. clear IH.
    rewrite marks_fragment_app.
    rewrite (drop_split text last index c Hle Hc).
    rewrite mark_from_app. cbn [mark_from].
    assert (Hlen : length (take (index - last) (drop last text)) = index - last).
    { rewrite length_take, length_drop. lia. }
    rewrite Hlen. replace (last + (index - last)) with index by lia.
    rewrite bool_decide_eq_true_2 by (apply elem_of_cons; by left).
    rewrite (mark_from_skip (S index) index rest) by lia.
    rewrite (mark_from_plain last (index :: rest)).
    2:{ constructor; [lia|].
        eapply Forall_impl; [apply increasing_from_lower, Hinc|].
        cbn beta. intros; lia. }
    assert (Hhl : marks (RFragment
              [{| key := KeyHighlight i; highlighted := true;
                  content := char_at text index |}]) = [(c, true)]).
    { unfold marks, flat_map, span_marks, char_at. cbn [content highlighted].
      rewrite Hc. reflexivity. }
    rewrite Hhl.
    destruct (Nat.ltb_spec last index) as [Hlt'|Hge].
    + rewrite marks_fragment_app.
      assert (Hpl : marks (RFragment
                [{| key := KeyText i; highlighted := false;
                    content := substring text last index |}]) =
              map (fun c => (c, false)) (take (index - last) (drop last text))).
      { unfold marks, flat_map, span_marks. cbn [content highlighted].
        rewrite app_nil_r, substring_take_drop by lia. reflexivity. }
      rewrite Hpl. rewrite <- !app_assoc. reflexivity.
    + replace (index - last) with 0 by lia. cbn [take map app].
      rewrite <- !app_assoc. reflexivity.
Qed.

Lemma mark_from_fst pos idxs (text : jsstring) :
  map fst (mark_from pos idxs text) = text.
Proof.
  revert pos. induction text as [|c t IH]; intros pos; cbn; [reflexivity|].
  by rewrite IH.
Qed.

Lemma highlightMatches_marks (r : FuzzyResult) :
  valid_indexes r ->
  marks (highlightMatches (Some r)) = mark_from 0 (indexes r) (target r).
Proof.
  destruct r as [text idxs]. unfold valid_indexes, highlightMatches.
  cbn [target indexes]. intros [Hinc Hlt].
  destruct text as [|c0 t0]; [reflexivity|].
  destruct idxs as [|i0 rest].
  - cbn [marks]. symmetry. apply (mark_from_plain 0 []). constructor.
  - set (text := c0 :: t0) in *. set (idxs := i0 :: rest) in *.
    pose proof (forEach_index_marks text idxs 0 [] 0 Hinc Hlt ltac:(lia)) as H.
    destruct (forEach_index text idxs 0 [] 0) as [elements last].
    destruct H as [Hbound H].
    change (marks (RFragment []) ++ mark_from 0 idxs (drop 0 text))
      with (mark_from 0 idxs text) in H.
    rewrite <- H.
    destruct (Nat.ltb_spec last (length text)) as [Hl|Hl].
    + rewrite marks_fragment_app. f_equal.
      unfold marks, flat_map, span_marks, substring_from.
      cbn [content highlighted]. apply app_nil_r.
    + rewrite drop_ge by lia. cbn [map]. by rewrite app_nil_r.
Qed.

(** C10. [highlightText] returns the text itself when the query or the
    text is empty; and for a fuzzysort match (indexes increasing and
    inside the target) the text content of what [highlightMatches]
    renders is the target, code unit for code unit, with exactly the
    positions listed in [indexes] inside highlight spans. *)
Theorem highlight_preserves_text :
  forall (single : jsstring -> jsstring -> option FuzzyResult)
         (text query : jsstring) (r : FuzzyResult),
    valid_indexes r ->
    (query = [] \/ text = [] -> highlightText single text query = RText text) /\
    (query <> [] -> text <> [] -> single query text = Some r ->
     textContent (highlightText single text query) = target r /\
     marks (highlightText single text query) =
       mark_from 0 (indexes r) (target r)) /\
    textContent (highlightMatches (Some r)) = target r /\
    marks (highlightMatches (Some r)) = mark_from 0 (indexes r) (target r).
Proof.
  intros single text query r Hvalid.
  assert (Htext : textContent (highlightMatches (Some r)) = target r).
  { unfold textContent. rewrite highlightMatches_marks by exact Hvalid.
    apply mark_from_fst. }
  split; [|split; [|split]].
  - intros [-> | ->]; [reflexivity|]. destruct query; reflexivity.
  - intros Hq Ht Hmatch.
    assert (Hstep : highlightText single text query =
                    highlightMatches (Some r)).
    { destruct query; [congruence|]. destruct text; [congruence|].
      cbn [highlightText]. by rewrite Hmatch. }
    rewrite Hstep. split; [exact Htext|].
    apply highlightMatches_marks, Hvalid.
  - exact Htext.
  - apply highlightMatches_marks, Hvalid.
Qed.

Lemma document_match_valid : valid_indexes document_match.
Proof.
  split.
  - cbn. lia.
  - repeat constructor; cbn; lia.
Defined.

Lemma highlight_preserves_text_witness :
  valid_indexes document_match /\
  textContent (highlightText (fun _ _ => Some document_match)
                 (str "Document") (str "doc")) = str "Document" /\
  marks (highlightMatches (Some document_match)) =
  mark_from 0 [0; 1; 2] (str "Document").
Proof.
  split; [exact document_match_valid|].
  destruct (highlight_preserves_text
              (fun _ _ => Some document_match) (str "Document") (str "doc")
              document_match document_match_valid)
    as (_ & Hend & _ & Hmarks).
  split; [|exact Hmarks].
  apply Hend; [discriminate|discriminate|reflexivity].
Defined.

(** The precondition on the indexes is needed: out of order, the loop
    emits part of the text twice. *)
Example highlight_unordered_indexes :
  textContent (highlightMatches (Some {| target := str "abc"; indexes := [2; 0] |}))
  = str "abcabc".
Proof. reflexivity. Qed.

(** Without a match [highlightText] renders nothing; the caller falls back
    to the plain title. *)
Example highlight_no_match :
  highlightText (fun _ _ => None) (str "Document") (str "xyz") = RNull.
Proof. reflexivity. Qed.

End Highlighting.

(** ** Grouping by result type *)

Section Grouping.

Import Js ResultGroup Scenario.

Lemma typeMap_add_lookup typeMap r ty :
  default [] (typeMap_add typeMap r !! ty) =
  default [] (typeMap !! ty) ++ of_type ty [r].
Proof.
  unfold typeMap_add, of_type. rewrite filter_cons, filter_nil.
  destruct (decide (type r = ty)) as [<-|Hne].
  - destruct (typeMap !! type r) as [existing|] eqn:E;
      rewrite lookup_insert_eq; reflexivity.
  - rewrite app_nil_r.
    destruct (typeMap !! type r) as [existing|] eqn:E;
      rewrite lookup_insert_ne by exact Hne; reflexivity.
Qed.

Lemma fold_typeMap_lookup results typeMap ty :
  default [] (fold_left typeMap_add results typeMap !! ty) =
  default [] (typeMap !! ty) ++ of_type ty results.
Proof.
  revert typeMap. induction results as [|r rs IH]; intros typeMap.
  - cbn [fold_left]. unfold of_type. rewrite filter_nil. by rewrite app_nil_r.
  - cbn [fold_left]. rewrite IH, typeMap_add_lookup, <- app_assoc.
    f_equal. unfold of_type. rewrite !filter_cons, filter_nil.
    destruct (decide (type r = ty)); reflexivity.
Qed.

Lemma build_typeMap_lookup results ty :
  default [] (build_typeMap results !! ty) = of_type ty results.
Proof.
  unfold build_typeMap. rewrite fold_typeMap_lookup, lookup_empty. reflexivity.
Qed.

Lemma collect_groups_displayed order typeMap k :
  displayed (collect_groups order typeMap k) =
  flat_map (fun ty => default [] (typeMap !! ty)) order.
Proof.
  revert k. induction order as [|ty rest IH]; intros k; [reflexivity|].
  cbn [collect_groups flat_map].
  destruct (typeMap !! ty) as [typeResults|]; cbn [default].
  - destruct (Nat.ltb_spec 0 (length typeResults)) as [Hpos|Hzero].
    + unfold displayed in *. cbn [flat_map g_results]. by rewrite IH.
    + destruct typeResults; [|cbn [length] in Hzero; lia]. apply IH.
  - apply IH.
Qed.

Lemma collect_groups_members order typeMap k :
  Forall (fun g => g_results g = default [] (typeMap !! g_type g) /\
                   g_results g <> [] /\
                   g_title g = getGroupTitle (g_type g))
         (collect_groups order typeMap k).
Proof.
  revert k. induction order as [|ty rest IH]; intros k; [constructor|].
  cbn [collect_groups].
  destruct (typeMap !! ty) as [typeResults|] eqn:E; [|apply IH].
  destruct (Nat.ltb_spec 0 (length typeResults)) as [Hpos|Hzero]; [|apply IH].
  constructor; [|apply IH]. cbn [g_results g_type g_title]. rewrite E.
  split; [reflexivity|]. split; [|reflexivity].
  intros ->. cbn [length] in Hpos. lia.
Qed.

Lemma collect_groups_types order typeMap k :
  sublist (map g_type (collect_groups order typeMap k)) order.
Proof.
  revert k. induction order as [|ty rest IH]; intros k; [constructor|].
  cbn [collect_groups].
  destruct (typeMap !! ty) as [typeResults|];
    [|apply sublist_cons, IH].
  destruct (0 <? length typeResults); [|apply sublist_cons, IH].
  cbn [map g_type]. apply sublist_skip, IH.
Qed.

(** [startIndex] counts the results of the groups displayed before. *)
Lemma collect_groups_startIndex order typeMap k pre g post :
  collect_groups order typeMap k = pre ++ g :: post ->
  startIndex g = k + length (displayed pre).
Proof.
  revert k pre. induction order as [|ty rest IH]; intros k pre Heq.
  - cbn in Heq. destruct pre; discriminate.
  - cbn [collect_groups] in Heq.
    destruct (typeMap !! ty) as [typeResults|]; [|exact (IH _ _ Heq)].
    destruct (0 <? length typeResults); [|exact (IH _ _ Heq)].
    destruct pre as [|g0 pre].
    + cbn [app] in Heq. inversion Heq; subst. cbn. lia.
    + cbn [app] in Heq. inversion Heq as [[Hg0 Hrest]].
      rewrite (IH _ _ Hrest). unfold displayed. cbn [flat_map g_results].
      rewrite length_app. lia.
Qed.

Lemma of_type_cons_other ty x rs :
  type x <> ty -> of_type ty (x :: rs) = of_type ty rs.
Proof.
  intros Hne. unfold of_type. rewrite filter_cons.
  destruct (decide (type x = ty)); [contradiction|reflexivity].
Qed.

Lemma of_type_cons_same x rs :
  of_type (type x) (x :: rs) = x :: of_type (type x) rs.
Proof.
  unfold of_type. rewrite filter_cons.
  destruct (decide (type x = type x)); [reflexivity|contradiction].
Qed.

Lemma flat_map_of_type_absent keys x rs :
  type x ∉ keys ->
  flat_map (fun ty => of_type ty (x :: rs)) keys =
  flat_map (fun ty => of_type ty rs) keys.
Proof.
  induction keys as [|k ks IH]; intros Hnotin; [reflexivity|].
  cbn [flat_map]. rewrite not_elem_of_cons in Hnotin.
  destruct Hnotin as [Hne Hks].
  rewrite of_type_cons_other by exact Hne. by rewrite IH.
Qed.

Lemma flat_map_of_type_cons keys x rs :
  NoDup keys -> type x ∈ keys ->
  flat_map (fun ty => of_type ty (x :: rs)) keys ≡ₚ
  x :: flat_map (fun ty => of_type ty rs) keys.
Proof.
  induction keys as [|k ks IH]; intros Hnd Hin.
  - by apply elem_of_nil in Hin.
  - apply NoDup_cons in Hnd as [Hk Hnd]. cbn [flat_map].
    destruct (decide (type x = k)) as [<-|Hne].
    + rewrite of_type_cons_same, flat_map_of_type_absent by exact Hk.
      reflexivity.
    + rewrite of_type_cons_other by exact Hne.
      apply elem_of_cons in Hin as [Heq|Hin]; [contradiction|].
      rewrite (IH Hnd Hin). symmetry. apply Permutation_middle.
Qed.

Lemma typeOrder_NoDup : NoDup typeOrder.
Proof. apply (bool_decide_unpack _). vm_compute. exact I. Qed.

Lemma typeOrder_complete ty : ty ∈ typeOrder.
Proof. destruct ty; apply (bool_decide_unpack _); vm_compute; exact I. Qed.

Lemma flat_map_of_type_perm results :
  flat_map (fun ty => of_type ty results) typeOrder ≡ₚ results.
Proof.
  induction results as [|x rs IH].
  - reflexivity.
  - rewrite flat_map_of_type_cons;
      [by rewrite IH | apply typeOrder_NoDup | apply typeOrder_complete].
Qed.

Lemma groupedResults_displayed results :
  displayed (groupedResults results) =
  flat_map (fun ty => of_type ty results) typeOrder.
Proof.
  unfold groupedResults. rewrite collect_groups_displayed.
  apply flat_map_ext. intros ty. apply build_typeMap_lookup.
Qed.

(** C4, as stated, fails: a calculator result ranked before a file result
    is displayed after it, because the FILES group precedes the
    CALCULATOR group. *)
Lemma grouping_reorders_across_groups :
  displayed (groupedResults calculator_then_file) <> calculator_then_file /\
  displayed (groupedResults calculator_then_file) = rev calculator_then_file.
Proof.
  split; [|vm_compute; reflexivity].
  vm_compute. intros H. discriminate H.
Qed.

(** C4, amended. Grouping keeps the input order inside every group: each
    displayed group holds exactly the input's results of its type, in
    input order, and is not empty. The groups follow the fixed order
    RecentFile, File, Application, QuickAction, Calculator, Bookmark,
    Clipboard, WebSearch, so the displayed sequence is the input regrouped
    by type: a permutation of the input. *)
Theorem grouping_preserves_order_within_groups :
  forall results : list SearchResult,
    Forall (fun g => g_results g = of_type (g_type g) results /\
                     g_results g <> [])
           (groupedResults results) /\
    sublist (map g_type (groupedResults results)) typeOrder /\
    displayed (groupedResults results) =
      flat_map (fun ty => of_type ty results) typeOrder /\
    displayed (groupedResults results) ≡ₚ results.
Proof.
  intros results. split; [|split; [|split]].
  - eapply Forall_impl; [apply collect_groups_members|].
    intros g (Hres & Hne & _). split; [|exact Hne].
    rewrite Hres. apply build_typeMap_lookup.
  - apply collect_groups_types.
  - apply groupedResults_displayed.
  - rewrite groupedResults_displayed. apply flat_map_of_type_perm.
Qed.

End Grouping.

(** ** The search hook: invariants of the reachable states *)

Section SearchHook.

Import Js UseSearch.

Lemma pending_count_app ts1 ts2 :
  pending_count (ts1 ++ ts2) = pending_count ts1 + pending_count ts2.
Proof.
  induction ts1 as [|t ts1 IH]; [reflexivity|].
  cbn [app pending_count]. rewrite IH. lia.
Qed.

Lemma due_callbacks_idle t ts :
  pending_count ts = 0 -> due_callbacks t ts = ([], ts).
Proof.
  induction ts as [|tm ts IH]; intros Hidle; [reflexivity|].
  cbn [pending_count] in Hidle. cbn [due_callbacks].
  destruct (pending tm); [lia|]. rewrite IH by lia. reflexivity.
Qed.

Lemma due_callbacks_app t ts1 ts2 :
  due_callbacks t (ts1 ++ ts2) =
  (fst (due_callbacks t ts1) ++ fst (due_callbacks t ts2),
   snd (due_callbacks t ts1) ++ snd (due_callbacks t ts2)).
Proof.
  induction ts1 as [|tm ts1 IH].
  - cbn [app due_callbacks fst snd]. by destruct (due_callbacks t ts2).
  - cbn [app due_callbacks]. rewrite IH.
    destruct (due_callbacks t ts1) as [qs1 ts1'].
    destruct (due_callbacks t ts2) as [qs2 ts2'].
    cbn [fst snd]. destruct (pending tm && (deadline tm <=? t)); reflexivity.
Qed.

(** With every timer but the last one idle, at most the last one runs. *)
Lemma due_callbacks_last t ts tm :
  pending_count ts = 0 ->
  due_callbacks t (ts ++ [tm]) =
  if pending tm && (deadline tm <=? t)
  then ([callback_query tm], ts ++ [switch_off tm])
  else ([], ts ++ [tm]).
Proof.
  intros Hidle. rewrite due_callbacks_app, due_callbacks_idle by exact Hidle.
  cbn [fst snd due_callbacks app].
  destruct (pending tm && (deadline tm <=? t)); reflexivity.
Qed.

Lemma clearTimeout_last ts tm :
  clearTimeout (length ts) (ts ++ [tm]) = ts ++ [switch_off tm].
Proof.
  unfold clearTimeout. rewrite list_lookup_middle by reflexivity.
  rewrite insert_app_r_alt by lia. rewrite Nat.sub_diag. reflexivity.
Qed.

Lemma pending_count_switch_off ts tm :
  pending_count ts = 0 -> pending_count (ts ++ [switch_off tm]) = 0.
Proof. intros H. rewrite pending_count_app, H. reflexivity. Qed.

Lemma performSearch_start_timers q s :
  timers (performSearch_start q s) = timers s /\
  debounceTimerRef (performSearch_start q s) = debounceTimerRef s /\
  query (performSearch_start q s) = query s /\
  now (performSearch_start q s) = now s.
Proof.
  unfold performSearch_start, new_controller, abort_current.
  destruct (abortControllerRef s); destruct (trim q); cbn; auto.
Qed.

Lemma performSearch_start_current q s :
  abortControllerRef (performSearch_start q s) = Some (length (controllers s)) /\
  controllers (performSearch_start q s) !! length (controllers s) = Some false.
Proof.
  unfold performSearch_start, new_controller, abort_current.
  destruct (abortControllerRef s) as [c|]; destruct (trim q); cbn;
    (split; [try rewrite length_insert; reflexivity|]);
    try (rewrite <- (length_insert (controllers s) c true) at 1);
    apply list_lookup_middle; reflexivity.
Qed.

(** What [performSearch] does with the call log: a blank query sends
    nothing, any other query sends exactly itself. *)
Lemma performSearch_start_calls q s :
  calls (performSearch_start q s) =
  match trim q with
  | [] => calls s
  | _ :: _ => calls s ++ [(q, false)]
  end.
Proof.
  unfold performSearch_start, new_controller, abort_current.
  destruct (abortControllerRef s); destruct (trim q); reflexivity.
Qed.

Lemma performSearch_start_wf q s : wf s -> wf (performSearch_start q s).
Proof.
  intros [Hcur Hcalls Htimers].
  destruct (performSearch_start_current q s) as [Href Hctl].
  destruct (performSearch_start_timers q s) as (Hts & Hdeb & _ & _).
  constructor.
  - intros c Hc. rewrite Href in Hc. injection Hc as <-. exact Hctl.
  - intros _. rewrite Href. eauto.
  - rewrite Hts, Hdeb. exact Htimers.
Qed.

Lemma debounce_effect_timers s ts tm :
  timers s = ts ++ [tm] -> debounceTimerRef s = Some (length ts) ->
  timers (debounce_effect s) =
    (ts ++ [switch_off tm]) ++
    [{| deadline := now s + DEBOUNCE_DELAY; callback_query := query s;
        pending := true |}] /\
  debounceTimerRef (debounce_effect s) = Some (length (ts ++ [switch_off tm])).
Proof.
  intros Hts Href. unfold debounce_effect, clear_debounce.
  rewrite Href. cbn. rewrite Hts, clearTimeout_last.
  assert (Hagain : clearTimeout (length ts) (ts ++ [switch_off tm]) =
                   ts ++ [switch_off tm]) by (by rewrite clearTimeout_last).
  rewrite Hagain. split; reflexivity.
Qed.

(** The debounce effect touches the timers only. *)
Lemma debounce_effect_frame s :
  abortControllerRef (debounce_effect s) = abortControllerRef s /\
  controllers (debounce_effect s) = controllers s /\
  calls (debounce_effect s) = calls s /\
  results (debounce_effect s) = results s /\
  query (debounce_effect s) = query s /\
  now (debounce_effect s) = now s.
Proof.
  unfold debounce_effect, clear_debounce.
  destruct (debounceTimerRef s) eqn:E; cbn; rewrite ?E; cbn;
    repeat split; reflexivity.
Qed.

Lemma setQuery_wf q s : wf s -> wf (setQuery q s).
Proof.
  intros Hwf. unfold setQuery. destruct (decide (q = query s)); [exact Hwf|].
  destruct Hwf as [Hcur Hcalls (ts & tm & Hts & Hidle & Href)].
  destruct (debounce_effect_timers (setQueryState q s) ts tm Hts Href)
    as [Hts' Href'].
  destruct (debounce_effect_frame (setQueryState q s))
    as (Hf1 & Hf2 & Hf3 & _).
  constructor.
  - rewrite Hf1, Hf2. exact Hcur.
  - rewrite Hf1, Hf3. exact Hcalls.
  - eexists _, _. split; [exact Hts'|]. split; [|exact Href'].
    apply pending_count_switch_off, Hidle.
Qed.

Lemma fold_performSearch_wf qs s :
  wf s -> wf (fold_left (fun s q => performSearch_start q s) qs s).
Proof.
  revert s. induction qs as [|q qs IH]; intros s Hwf; [exact Hwf|].
  apply IH, performSearch_start_wf, Hwf.
Qed.

Lemma advance_wf dt s : wf s -> wf (advance dt s).
Proof.
  intros [Hcur Hcalls (ts & tm & Hts & Hidle & Href)]. unfold advance.
  rewrite Hts, due_callbacks_last by exact Hidle.
  destruct (pending tm && (deadline tm <=? now s + dt));
    apply fold_performSearch_wf; constructor; cbn; try assumption.
  - eexists _, _. split; [reflexivity|]. split; assumption.
  - eexists _, _. split; [reflexivity|]. split; assumption.
Qed.

(** In a state whose current controller is live, the guards of
    [performSearch] let every update through. *)
Lemma performSearch_resume_live outcome s c :
  abortControllerRef s = Some c -> controllers s !! c = Some false ->
  performSearch_resume outcome s =
  (inl tt,
   match outcome with
   | inl searchResults =>
       setIsLoading false (setError None (setResults searchResults s))
   | inr err =>
       setIsLoading false
         (setResults []
            (setError (Some (message_or (str "Search failed") err))
               (console_push
                  (ConsoleError (str "Search error:")
                                (message_or (str "Search failed") err)) s)))
   end).
Proof.
  intros Href Hctl.
  unfold performSearch_resume, try_finally, try_catch, bind, current_aborted,
    when, modify, await, ret, throw.
  destruct outcome as [rs|err]; cbn; rewrite Href, Hctl; cbn;
    rewrite ?Href, ?Hctl; cbn; rewrite ?Href, ?Hctl; reflexivity.
Qed.

Lemma mark_settled_fields call s :
  abortControllerRef (mark_settled call s) = abortControllerRef s /\
  controllers (mark_settled call s) = controllers s /\
  timers (mark_settled call s) = timers s /\
  debounceTimerRef (mark_settled call s) = debounceTimerRef s /\
  (calls s <> [] -> calls (mark_settled call s) <> []).
Proof.
  unfold mark_settled. destruct (calls s !! call) as [[q b]|] eqn:E; cbn; auto.
  repeat split; try reflexivity. intros _ Hnil.
  apply (f_equal length) in Hnil. rewrite length_insert in Hnil.
  apply lookup_lt_Some in E. cbn in Hnil. lia.
Qed.

Lemma in_flight_current s call q :
  wf s -> calls s !! call = Some (q, false) ->
  exists c, abortControllerRef (mark_settled call s) = Some c /\
            controllers (mark_settled call s) !! c = Some false.
Proof.
  intros [Hcur Hcalls _] Hcall.
  destruct (mark_settled_fields call s) as (Href & Hctl & _).
  destruct Hcalls as [c Hc]; [intros Hnil; rewrite Hnil in Hcall; discriminate|].
  exists c. rewrite Href, Hctl. split; [exact Hc|exact (Hcur c Hc)].
Qed.

Lemma settle_wf call outcome s : wf s -> wf (settle call outcome s).
Proof.
  intros Hwf. unfold settle.
  destruct (calls s !! call) as [[q []]|] eqn:E; try exact Hwf.
  destruct (in_flight_current s call q Hwf E) as (c & Href & Hctl).
  rewrite (performSearch_resume_live outcome _ c Href Hctl). cbn [snd].
  destruct (mark_settled_fields call s) as (Href' & Hctl' & Hts & Hdeb & Hne).
  destruct Hwf as [Hcur Hcalls Htimers].
  destruct outcome; constructor; cbn;
    rewrite ?Href', ?Hctl', ?Hts, ?Hdeb; auto.
  - intros _. rewrite <- Href', Href. eauto.
  - intros _. rewrite <- Href', Href. eauto.
Qed.

Lemma initial_wf : wf initial.
Proof.
  constructor.
  - intros c Hc. discriminate Hc.
  - intros H. exfalso. apply H. reflexivity.
  - exists [], {| deadline := DEBOUNCE_DELAY; callback_query := [];
                 pending := true |}.
    repeat split.
Qed.

Lemma step_wf s e : wf s -> wf (step s e).
Proof.
  destruct e; cbn [step];
    [apply setQuery_wf | apply advance_wf | apply settle_wf].
Qed.

Lemma run_wf events s : wf s -> wf (run events s).
Proof.
  revert s. induction events as [|e events IH]; intros s Hwf; [exact Hwf|].
  apply IH, step_wf, Hwf.
Qed.

(** The controller in [abortControllerRef] is never an aborted one: the
    only [abort()] in the hook is followed at once by the creation of a
    fresh controller. *)
Lemma current_controller_never_aborted events c :
  abortControllerRef (run events initial) = Some c ->
  controllers (run events initial) !! c = Some false.
Proof. apply wf_current, run_wf, initial_wf. Qed.

End SearchHook.

(** ** The search hook: debouncing *)

Section Debounce.

Import Js UseSearch.

Lemma advance_last dt s ts tm :
  timers s = ts ++ [tm] -> pending_count ts = 0 ->
  advance dt s =
  if pending tm && (deadline tm <=? now s + dt)
  then performSearch_start (callback_query tm)
         (with_now (now s + dt)
            (with_timers (ts ++ [switch_off tm]) (debounceTimerRef s) s))
  else with_now (now s + dt)
         (with_timers (ts ++ [tm]) (debounceTimerRef s) s).
Proof.
  intros Hts Hidle. unfold advance.
  rewrite Hts, due_callbacks_last by exact Hidle.
  destruct (pending tm && (deadline tm <=? now s + dt)); reflexivity.
Qed.

Lemma advance_query dt s : wf s -> query (advance dt s) = query s.
Proof.
  intros [_ _ (ts & tm & Hts & Hidle & _)].
  rewrite (advance_last dt s ts tm Hts Hidle).
  destruct (pending tm && (deadline tm <=? now s + dt)); [|reflexivity].
  destruct (performSearch_start_timers (callback_query tm)
              (with_now (now s + dt)
                 (with_timers (ts ++ [switch_off tm]) (debounceTimerRef s) s)))
    as (_ & _ & Hq & _).
  exact Hq.
Qed.

Lemma setQuery_query q s : query (setQuery q s) = q.
Proof.
  unfold setQuery. destruct (decide (q = query s)) as [->|_]; [reflexivity|].
  destruct (debounce_effect_frame (setQueryState q s)) as (_ & _ & _ & _ & Hq & _).
  exact Hq.
Qed.

Lemma pending_count_last ts tm :
  pending_count ts = 0 ->
  pending_count (ts ++ [tm]) = if pending tm then 1 else 0.
Proof.
  intros H. rewrite pending_count_app, H. cbn. destruct (pending tm); lia.
Qed.

Lemma advance_potential dt s : wf s -> potential (advance dt s) <= potential s.
Proof.
  intros [_ _ (ts & tm & Hts & Hidle & _)]. unfold potential.
  rewrite (advance_last dt s ts tm Hts Hidle), Hts.
  rewrite (pending_count_last ts tm Hidle).
  destruct (pending tm) eqn:Hp; cbn [andb].
  - destruct (deadline tm <=? now s + dt).
    + destruct (performSearch_start_timers (callback_query tm)
                  (with_now (now s + dt)
                     (with_timers (ts ++ [switch_off tm]) (debounceTimerRef s) s)))
        as (Htm & _).
      rewrite Htm, performSearch_start_calls. cbn [timers with_now with_timers calls].
      rewrite (pending_count_switch_off ts tm Hidle).
      destruct (trim (callback_query tm)); rewrite ?length_app; cbn [length]; lia.
    + cbn [timers with_now with_timers calls].
      rewrite (pending_count_last ts tm Hidle), Hp. lia.
  - cbn [timers with_now with_timers calls].
    rewrite (pending_count_last ts tm Hidle), Hp. lia.
Qed.

Lemma setQuery_potential q s :
  wf s -> potential (setQuery q s) <= length (calls s) + 1.
Proof.
  intros [_ _ (ts & tm & Hts & Hidle & Href)]. unfold potential, setQuery.
  destruct (decide (q = query s)) as [_|_].
  - rewrite Hts, (pending_count_last ts tm Hidle). destruct (pending tm); lia.
  - destruct (debounce_effect_timers (setQueryState q s) ts tm Hts Href)
      as [Hts' _].
    destruct (debounce_effect_frame (setQueryState q s)) as (_ & _ & Hc & _).
    rewrite Hts', Hc, pending_count_last by (apply pending_count_switch_off, Hidle).
    cbn. lia.
Qed.

Lemma setQuery_same q s : query s = q -> setQuery q s = s.
Proof.
  intros <-. unfold setQuery.
  destruct (decide (query s = query s)); [reflexivity|contradiction].
Qed.

Lemma typed_twice_at_most_once q d1 d2 s :
  wf s ->
  length (invoked (run (typed_twice q d1 d2) s)) <= length (invoked s) + 1.
Proof.
  intros Hwf. unfold invoked. rewrite !length_map.
  cbn [typed_twice run fold_left step].
  pose proof (setQuery_wf q s Hwf) as Hwf1.
  pose proof (advance_wf d1 _ Hwf1) as Hwf2.
  rewrite (setQuery_same q (advance d1 (setQuery q s)))
    by (rewrite advance_query by exact Hwf1; apply setQuery_query).
  pose proof (advance_potential d2 _ Hwf2) as H2.
  pose proof (advance_potential d1 _ Hwf1) as H1.
  pose proof (setQuery_potential q s Hwf) as H0.
  unfold potential in *. lia.
Qed.

Lemma typed_twice_exactly_once q d1 d2 s :
  wf s -> q <> query s -> trim q <> [] ->
  d1 < DEBOUNCE_DELAY -> DEBOUNCE_DELAY <= d1 + d2 ->
  calls (run (typed_twice q d1 d2) s) = calls s ++ [(q, false)].
Proof.
  intros Hwf Hq Hblank Hd1 Hd2.
  cbn [typed_twice run fold_left step].
  pose proof (setQuery_wf q s Hwf) as Hwf1.
  rewrite (setQuery_same q (advance d1 (setQuery q s)))
    by (rewrite advance_query by exact Hwf1; apply setQuery_query).
  destruct Hwf as [_ _ (ts & tm & Hts & Hidle & Href)].
  unfold setQuery in *. destruct (decide (q = query s)); [contradiction|].
  set (s0 := setQueryState q s) in *.
  destruct (debounce_effect_timers s0 ts tm Hts Href) as [Hts1 Href1].
  destruct (debounce_effect_frame s0) as (_ & _ & Hc1 & _ & _ & Hnow1).
  set (s1 := debounce_effect s0) in *.
  pose proof (pending_count_switch_off ts tm Hidle) as Hidle1.
  rewrite (advance_last d1 s1 _ _ Hts1 Hidle1).
  cbn [pending deadline callback_query andb].
  change (now s0) with (now s) in *. change (query s0) with q in *.
  destruct (Nat.leb_spec (now s + DEBOUNCE_DELAY) (now s1 + d1)) as [Hle|_];
    [rewrite Hnow1 in Hle; lia|].
  match goal with
  | |- calls (advance d2 ?x) = _ => set (s2 := x)
  end.
  rewrite (advance_last d2 s2 (ts ++ [switch_off tm])
             {| deadline := now s + DEBOUNCE_DELAY; callback_query := q;
                pending := true |} eq_refl Hidle1).
  cbn [pending deadline callback_query andb].
  destruct (Nat.leb_spec (now s + DEBOUNCE_DELAY) (now s2 + d2)) as [_|Hlt].
  - rewrite performSearch_start_calls.
    destruct (trim q); [contradiction|].
    subst s2. cbn [calls with_now with_timers]. rewrite Hc1. reflexivity.
  - subst s2. cbn [now with_now] in Hlt. rewrite Hnow1 in Hlt. lia.
Qed.

End Debounce.

(** ** The search hook: the claims *)

Section SearchClaims.

Import Js UseSearch Scenario.

(** C1 fails on the code. After ["a"] and ["ab"] have been dispatched and
    the call for ["ab"] has delivered its results, the late answer to
    ["a"] replaces them: the guard at lines 58, 64 and 72 reads
    [abortControllerRef.current], which by then is the controller of the
    newer search, not the aborted one of the search that is resuming. The
    same happens when the older call answers first: its results are shown
    and the loading flag is cleared while ["ab"] is still in flight. *)
Theorem stale_search_overwrites_newer :
  let late := run (a_then_ab ++ [Settle 1 (inl results_ab);
                                 Settle 0 (inl results_a)]) initial in
  let early := run (a_then_ab ++ [Settle 0 (inl results_a)]) initial in
  invoked late = [str "a"; str "ab"] /\
  query late = str "ab" /\
  controllers late = [true; false] /\
  results late = results_a /\
  results (run (a_then_ab ++ [Settle 1 (inl results_ab)]) initial) = results_ab /\
  calls early = [(str "a", true); (str "ab", false)] /\
  results early = results_a /\
  isLoading early = false.
Proof. vm_compute. repeat split. Qed.

Lemma performSearch_start_blank q s :
  trim q = [] ->
  results (performSearch_start q s) = [] /\
  isLoading (performSearch_start q s) = false /\
  error (performSearch_start q s) = None /\
  calls (performSearch_start q s) = calls s.
Proof.
  intros Hblank. unfold performSearch_start. rewrite Hblank.
  unfold new_controller, abort_current.
  destruct (abortControllerRef s); repeat split.
Qed.

(** C2 fails on the code. For the empty query, and for one made of
    white space, [performSearch] clears the result list and returns before
    it reaches [invoke]: no request is sent, so the Recent-Files results
    the back end holds are never shown. *)
Theorem blank_query_never_reaches_backend :
  let opened := run [Advance 150] initial in
  let spaces := run [SetQuery (str "a"); Advance 150;
                     Settle 0 (inl results_a);
                     SetQuery (str "  "); Advance 150] initial in
  query opened = [] /\ results opened = [] /\ invoked opened = [] /\
  isLoading opened = false /\
  results spaces = [] /\ invoked spaces = [str "a"] /\
  timers spaces = map switch_off (timers spaces).
Proof. vm_compute. repeat split. Qed.

(** C6. The query operation never throws: whenever the back end rejects
    a [search_query] call that is in flight, in any reachable state of the
    hook and with any rejection value, the resumed [performSearch]
    completes normally, the result list is empty, the error message is
    recorded and the loading flag is cleared. *)
Theorem performSearch_never_throws :
  forall (events : list event) (call : nat) (q : jsstring) (err : value),
    calls (run events initial) !! call = Some (q, false) ->
    let resumed :=
      performSearch_resume (inr err) (mark_settled call (run events initial)) in
    fst resumed = inl tt /\
    results (snd resumed) = [] /\
    error (snd resumed) = Some (message_or (str "Search failed") err) /\
    isLoading (snd resumed) = false /\
    settle call (inr err) (run events initial) = snd resumed.
Proof.
  intros events call q err Hcall.
  pose proof (run_wf events initial initial_wf) as Hwf.
  destruct (in_flight_current _ call q Hwf Hcall) as (c & Href & Hctl).
  cbv zeta. rewrite (performSearch_resume_live _ _ c Href Hctl).
  cbn [fst snd]. repeat split.
  unfold settle. rewrite Hcall.
  rewrite (performSearch_resume_live _ _ c Href Hctl). reflexivity.
Qed.

Lemma performSearch_never_throws_witness :
  let s := run [SetQuery (str "a"); Advance 150] initial in
  let resumed :=
    performSearch_resume (inr (JsOther (str "backend down")))
      (mark_settled 0 s) in
  calls s !! 0 = Some (str "a", false) /\
  fst resumed = inl tt /\
  results (snd resumed) = [] /\
  error (snd resumed) = Some (str "Search failed") /\
  isLoading (snd resumed) = false.
Proof.
  split; [reflexivity|].
  pose proof (performSearch_never_throws
                [SetQuery (str "a"); Advance 150] 0 (str "a")
                (JsOther (str "backend down")) eq_refl) as H.
  cbv zeta in H. destruct H as (H1 & H2 & H3 & H4 & _).
  repeat split; assumption.
Defined.

(** C7. Two [setQuery] calls with the same text, the second within the
    debounce window of the first, send at most one [search_query]
    invocation; when the text is new and not blank, exactly one is sent
    once the window has passed, and the single result list it delivers is
    the one the hook then shows. *)
Theorem same_query_twice_searches_once :
  forall (events : list event) (q : jsstring) (d1 d2 : nat)
         (found : list SearchResult),
    d1 < DEBOUNCE_DELAY ->
    let s := run events initial in
    let s' := run (typed_twice q d1 d2) s in
    length (invoked s') <= length (invoked s) + 1 /\
    (q <> query s -> trim q <> [] -> DEBOUNCE_DELAY <= d1 + d2 ->
     invoked s' = invoked s ++ [q] /\
     calls s' !! length (calls s) = Some (q, false) /\
     results (settle (length (calls s)) (inl found) s') = found).
Proof.
  intros events q d1 d2 found Hd1 s s'.
  pose proof (run_wf events initial initial_wf) as Hwf. fold s in Hwf.
  split; [apply typed_twice_at_most_once, Hwf|].
  intros Hq Hblank Hd2.
  pose proof (typed_twice_exactly_once q d1 d2 s Hwf Hq Hblank Hd1 Hd2) as Hcalls.
  fold s' in Hcalls.
  assert (Hcall : calls s' !! length (calls s) = Some (q, false)).
  { rewrite Hcalls. apply list_lookup_middle. reflexivity. }
  split; [|split; [exact Hcall|]].
  - unfold invoked. rewrite Hcalls, map_app. reflexivity.
  - assert (Hwf' : wf s') by (apply run_wf, Hwf).
    destruct (in_flight_current s' _ q Hwf' Hcall) as (c & Href & Hctl).
    unfold settle. rewrite Hcall.
    rewrite (performSearch_resume_live _ _ c Href Hctl). reflexivity.
Qed.

Lemma same_query_twice_searches_once_witness :
  50 < DEBOUNCE_DELAY /\
  str "doc" <> query (run [] initial) /\
  trim (str "doc") <> [] /\
  DEBOUNCE_DELAY <= 50 + 100 /\
  invoked (run (typed_twice (str "doc") 50 100) (run [] initial)) = [str "doc"] /\
  results (settle 0 (inl results_a)
             (run (typed_twice (str "doc") 50 100) (run [] initial))) = results_a.
Proof.
  assert (H1 : 50 < DEBOUNCE_DELAY) by (unfold DEBOUNCE_DELAY; lia).
  assert (H2 : str "doc" <> query (run [] initial)) by discriminate.
  assert (H3 : trim (str "doc") <> []) by discriminate.
  assert (H4 : DEBOUNCE_DELAY <= 50 + 100) by (unfold DEBOUNCE_DELAY; lia).
  pose proof (same_query_twice_searches_once [] (str "doc") 50 100 results_a H1)
    as H.
  cbv zeta in H. destruct H as [_ H]. destruct (H H2 H3 H4) as (Ha & _ & Hc).
  repeat split; assumption.
Defined.

End SearchClaims.

(** ** Grouping on the object store *)

Section GroupingOnTheStore.

Import Js ResultGroup.













End GroupingOnTheStore.

(** ** Result lists are replaced, results are never written *)

Section ResultLifetime.

Import Js UseSearch ResultGroup Scenario.





Lemma mark_settled_results call s : results (mark_settled call s) = results s.
Proof.
  unfold mark_settled. by destruct (calls s !! call) as [[q b]|].
Qed.








End ResultLifetime.

(** ** Executing a result *)

Section Execution.

Import Js UseSearch SearchBar Scenario.

Lemma executeResult_failure err result h :
  executeResult (inr err) result h =
  (inr (JsError (message_or (str "Failed to execute result") err)),
   console_push
     (ConsoleError (str "Execute error:")
                   (message_or (str "Failed to execute result") err)) h).
Proof. reflexivity. Qed.

Lemma executeResult_success result h :
  executeResult (inl tt) result h =
  (inl tt,
   console_push
     (ConsoleLog (str "Result executed successfully:") (title result)) h).
Proof. reflexivity. Qed.

Lemma selection_guard (results : list SearchResult) (i : Z) (r : SearchResult) :
  (0 <= i)%Z -> results !! Z.to_nat i = Some r ->
  ((0 <? length results)%nat && (0 <=? i)%Z &&
   (i <? Z.of_nat (length results))%Z)%bool = true.
Proof.
  intros Hi Hr. apply lookup_lt_Some in Hr.
  rewrite !andb_true_iff. repeat split.
  - apply Nat.ltb_lt. lia.
  - apply Z.leb_le. exact Hi.
  - apply Z.ltb_lt. lia.
Qed.




(** On success the window closes. *)
Lemma execute_success_closes execute_result ui selected :
  (0 <= selectedIndex ui)%Z ->
  results (hook ui) !! Z.to_nat (selectedIndex ui) = Some selected ->
  execute_result selected = inl tt ->
  fst (handleExecuteResult execute_result ui) = inl tt /\
  isAnimatingOut (snd (handleExecuteResult execute_result ui)) = true /\
  closeTimeouts (snd (handleExecuteResult execute_result ui)) = S (closeTimeouts ui).
Proof.
  intros Hi Hsel Hok. unfold handleExecuteResult, bind, get.
  rewrite (selection_guard _ _ _ Hi Hsel), Hsel, Hok.
  unfold try_catch, bind, lift. rewrite executeResult_success.
  repeat split.
Qed.

End Execution.

(** ** The merge step *)

Section StableSort.

Import Engine.
Local Open Scope Z_scope.

Context {A : Type} (key : A -> Z).

Lemma insert_desc_perm x l : insert_desc key x l ≡ₚ x :: l.
Proof.
  induction l as [|y rest IH]; [reflexivity|].
  cbn [insert_desc]. destruct (key x <? key y); [|reflexivity].
  rewrite IH. apply perm_swap.
Qed.

Lemma sort_desc_perm l : sort_desc key l ≡ₚ l.
Proof.
  induction l as [|x rest IH]; [reflexivity|].
  cbn [sort_desc foldr]. rewrite insert_desc_perm.
  constructor. exact IH.
Qed.

Lemma insert_desc_descending x l :
  descending key l -> descending key (insert_desc key x l).
Proof.
  unfold descending. induction l as [|y rest IH]; intros Hs.
  - repeat constructor.
  - cbn [insert_desc]. apply StronglySorted_inv in Hs as [Hrest Hy].
    destruct (Z.ltb_spec (key x) (key y)) as [Hlt|Hge].
    + constructor; [apply IH, Hrest|].
      rewrite insert_desc_perm. constructor; [lia|exact Hy].
    + constructor; [constructor; assumption|].
      constructor; [lia|].
      eapply Forall_impl; [exact Hy|]. cbn beta. intros; lia.
Qed.

Lemma sort_desc_descending l : descending key (sort_desc key l).
Proof.
  induction l as [|x rest IH]; [constructor|].
  cbn [sort_desc foldr]. apply insert_desc_descending, IH.
Qed.

(** Stability: elements with equal keys keep their order. *)
Lemma insert_desc_stable k x l :
  filter (fun a => key a = k) (insert_desc key x l) =
  filter (fun a => key a = k) (x :: l).
Proof.
  induction l as [|y rest IH]; [reflexivity|].
  cbn [insert_desc]. destruct (Z.ltb_spec (key x) (key y)) as [Hlt|Hge];
    [|reflexivity].
  rewrite filter_cons, IH, !filter_cons.
  destruct (decide (key y = k)), (decide (key x = k)); try reflexivity; lia.
Qed.

Lemma sort_desc_stable k l :
  filter (fun a => key a = k) (sort_desc key l) =
  filter (fun a => key a = k) l.
Proof.
  induction l as [|x rest IH]; [reflexivity|].
  cbn [sort_desc foldr]. rewrite insert_desc_stable, !filter_cons.
  fold (sort_desc key rest). rewrite IH. reflexivity.
Qed.

End StableSort.

Section Merge.

Import Js Engine Scenario.
Local Open Scope Z_scope.

Lemma StronglySorted_app_cross {B} (R : B -> B -> Prop) l1 l2 :
  StronglySorted R l1 -> StronglySorted R l2 ->
  (forall a b, a ∈ l1 -> b ∈ l2 -> R a b) ->
  StronglySorted R (l1 ++ l2).
Proof.
  intros H1 H2 Hcross. induction l1 as [|x l1 IH]; [exact H2|].
  apply StronglySorted_inv in H1 as [Hrest Hx]. cbn [app].
  constructor.
  - apply IH; [exact Hrest|]. intros a b Ha Hb.
    apply Hcross; [by apply elem_of_cons; right|exact Hb].
  - apply Forall_app. split; [exact Hx|].
    apply Forall_forall. intros b Hb.
    apply Hcross; [by apply elem_of_cons; left|exact Hb].
Qed.

Lemma block_in_order p : StronglySorted in_order (block p).
Proof.
  unfold block. pose proof (sort_desc_descending score (search p)) as Hs.
  unfold descending in Hs.
  induction Hs as [|r rest Hrest IH Hr]; cbn [map]; constructor.
  - exact IH.
  - apply Forall_map. eapply Forall_impl; [exact Hr|].
    intros b Hb. split; cbn [fst snd]; [lia|intros _; exact Hb].
Qed.

Lemma elem_of_block e p : e ∈ block p -> fst e = p.
Proof.
  unfold block. intros He.
  apply list_elem_of_In, in_map_iff in He as (r & <- & _).
  reflexivity.
Qed.

Lemma blocks_in_order ps :
  descending priority ps -> NoDup (map name ps) ->
  StronglySorted in_order (flat_map block ps).
Proof.
  unfold descending. intros Hs. induction Hs as [|p rest Hrest IH Hp];
    intros Hnd; cbn [flat_map]; [constructor|].
  cbn [map] in Hnd. apply NoDup_cons in Hnd as [Hname Hnd].
  apply StronglySorted_app_cross; [apply block_in_order|apply IH, Hnd|].
  intros a b Ha Hb. apply elem_of_block in Ha as Hfa.
  apply list_elem_of_In, in_flat_map in Hb as (q & Hq & Hb).
  apply list_elem_of_In in Hq, Hb. apply elem_of_block in Hb as Hfb.
  rewrite Forall_forall in Hp. split.
  - rewrite Hfa, Hfb. apply Hp, Hq.
  - rewrite Hfa, Hfb. intros Heq. exfalso. apply Hname.
    rewrite Heq. apply list_elem_of_In, in_map, list_elem_of_In, Hq.
Qed.

Lemma flat_map_perm {B C} (f : B -> list C) l1 l2 :
  l1 ≡ₚ l2 -> flat_map f l1 ≡ₚ flat_map f l2.
Proof.
  induction 1 as [|x l1 l2 _ IH|x y l|l1 l2 l3 _ IH1 _ IH2]; cbn [flat_map].
  - reflexivity.
  - by rewrite IH.
  - rewrite !app_assoc. f_equiv. apply Permutation_app_comm.
  - by rewrite IH1.
Qed.

Lemma flat_map_perm_pointwise {B C} (f g : B -> list C) l :
  (forall x, f x ≡ₚ g x) -> flat_map f l ≡ₚ flat_map g l.
Proof.
  intros Hfg. induction l as [|x l IH]; cbn [flat_map]; [reflexivity|].
  by rewrite Hfg, IH.
Qed.

Lemma filter_block_priority k p :
  filter (fun e : Provider * SearchResult => priority (fst e) = k) (block p) =
  if decide (priority p = k) then block p else [].
Proof.
  unfold block. induction (sort_desc score (search p)) as [|r rest IH];
    cbn [map].
  - rewrite filter_nil. by destruct (decide (priority p = k)).
  - rewrite filter_cons, IH. cbn [fst].
    destruct (decide (priority p = k)); reflexivity.
Qed.

Lemma filter_blocks_priority k ps :
  filter (fun e : Provider * SearchResult => priority (fst e) = k)
         (flat_map block ps) =
  flat_map block (filter (fun p => priority p = k) ps).
Proof.
  induction ps as [|p rest IH]; [reflexivity|].
  cbn [flat_map]. rewrite filter_app, IH, filter_block_priority, filter_cons.
  destruct (decide (priority p = k)); reflexivity.
Qed.

(** C3. The merged list holds the results of all providers, ordered by
    provider priority, highest first, and inside one provider by score,
    highest first; providers of equal priority stay in provider-list
    order and results of equal score in the order their provider
    returned them. For Calculator (priority 90, result "4") and WebSearch
    (priority 1, result "search the web") the merged titles are "4",
    "search the web", whichever provider is listed first. *)
Theorem merge_ordered_by_priority_then_score :
  forall providers : list Provider,
    NoDup (map name providers) ->
    merge_attributed providers ≡ₚ
      flat_map (fun p => map (pair p) (search p)) providers /\
    StronglySorted in_order (merge_attributed providers) /\
    (forall k,
       filter (fun e : Provider * SearchResult => priority (fst e) = k)
              (merge_attributed providers) =
       flat_map (fun p => map (pair p) (sort_desc score (search p)))
                (filter (fun p => priority p = k) providers)) /\
    (forall p k,
       filter (fun r => score r = k) (sort_desc score (search p)) =
       filter (fun r => score r = k) (search p)) /\
    map title (merge [calculator; webSearch]) = [str "4"; str "search the web"] /\
    map title (merge [webSearch; calculator]) = [str "4"; str "search the web"].
Proof.
  intros providers Hnd.
  change (merge_attributed providers)
    with (flat_map block (sort_desc priority providers)).
  split; [|split; [|split; [|split; [|split]]]].
  - rewrite (flat_map_perm block _ _ (sort_desc_perm priority providers)).
    apply flat_map_perm_pointwise. intros p. unfold block.
    apply Permutation_map, sort_desc_perm.
  - apply blocks_in_order; [apply sort_desc_descending|].
    assert (Hp : map name (sort_desc priority providers) ≡ₚ map name providers)
      by apply Permutation_map, sort_desc_perm.
    rewrite Hp. exact Hnd.
  - intros k. rewrite filter_blocks_priority, sort_desc_stable. reflexivity.
  - intros p k. apply sort_desc_stable.
  - vm_compute. reflexivity.
  - vm_compute. reflexivity.
Qed.

Lemma merge_ordered_by_priority_then_score_witness :
  NoDup (map name [webSearch; calculator]) /\
  merge_attributed [webSearch; calculator] ≡ₚ
    flat_map (fun p => map (pair p) (search p)) [webSearch; calculator] /\
  StronglySorted in_order (merge_attributed [webSearch; calculator]).
Proof.
  assert (Hnd : NoDup (map name [webSearch; calculator])).
  { apply (bool_decide_unpack _). vm_compute. exact I. }
  destruct (merge_ordered_by_priority_then_score [webSearch; calculator] Hnd)
    as (Hperm & Hsorted & _).
  split; [exact Hnd|]. split; [exact Hperm|exact Hsorted].
Defined.

End Merge.

(** ** The rows of the result list *)

Section ResultRowsFacts.

Import Js ResultGroup ResultRows.

Lemma collect_groups_starts order typeMap k :
  starts_at k (collect_groups order typeMap k).
Proof.
  revert k. induction order as [|ty rest IH]; intros k; [exact I|].
  cbn [collect_groups]. destruct (typeMap !! ty) as [typeResults|]; [|apply IH].
  destruct (0 <? length typeResults); [|apply IH].
  split; [reflexivity|apply IH].
Qed.

Lemma rows_of_app items1 items2 :
  rows_of (items1 ++ items2) = rows_of items1 ++ rows_of items2.
Proof.
  induction items1 as [|[t|d a|] rest IH]; cbn [app rows_of]; [reflexivity|..];
    by rewrite ?IH.
Qed.

Lemma rows_of_result_rows start i results :
  rows_of (result_rows start i results) = numbered (start + i) results.
Proof.
  revert i. induction results as [|r rest IH]; intros i; [reflexivity|].
  cbn [result_rows rows_of numbered]. rewrite IH. do 2 f_equal. lia.
Qed.

Lemma numbered_app from l1 l2 :
  numbered from (l1 ++ l2) = numbered from l1 ++ numbered (from + length l1) l2.
Proof.
  revert from. induction l1 as [|r rest IH]; intros from; cbn [app numbered length].
  - by rewrite Nat.add_0_r.
  - rewrite IH. do 3 f_equal. lia.
Qed.

Lemma rows_of_flatten_groups total groupIndex groups k :
  starts_at k groups ->
  rows_of (flatten_groups total groupIndex groups) = numbered k (displayed groups).
Proof.
  revert groupIndex k. induction groups as [|g rest IH]; intros gi k Hstarts;
    [reflexivity|].
  destruct Hstarts as [Hstart Hrest].
  cbn [flatten_groups app rows_of]. unfold displayed. cbn [flat_map].
  rewrite !rows_of_app.
  rewrite rows_of_result_rows, Hstart, Nat.add_0_r, numbered_app.
  f_equal. rewrite (IH (S gi) _ Hrest).
  destruct (gi <? total - 1); reflexivity.
Qed.

Lemma rows_numbered_in_display_order_aux results :
  rows_of (flattenedItems (groupedResults results)) =
  numbered 0 (displayed (groupedResults results)).
Proof.
  unfold flattenedItems. apply rows_of_flatten_groups.
  unfold groupedResults. apply collect_groups_starts.
Qed.

(** X1. The result rows of the list, read from top to bottom, are the
    results in display order (group after group), numbered 0, 1, 2, ...:
    [absoluteIndex] is the position of a result in display order, and
    every result of the input has exactly one row. *)
Theorem rows_numbered_in_display_order :
  forall results : list SearchResult,
    rows_of (flattenedItems (groupedResults results)) =
      numbered 0 (displayed (groupedResults results)) /\
    map fst (rows_of (flattenedItems (groupedResults results))) ≡ₚ results.
Proof.
  intros results. rewrite rows_numbered_in_display_order_aux.
  split; [reflexivity|].
  assert (Hfst : forall from l, map fst (numbered from l) = l).
  { intros from l. revert from. induction l as [|r l IH]; intros from;
      cbn [numbered map fst]; [reflexivity|by rewrite IH]. }
  rewrite Hfst, groupedResults_displayed. apply flat_map_of_type_perm.
Qed.

Lemma totalHeight_sum items acc :
  fold_left (fun sum item => sum + getItemSize item) items acc =
  acc + totalHeight items.
Proof.
  unfold totalHeight. revert acc.
  induction items as [|x rest IH]; intros acc; cbn [fold_left]; [lia|].
  rewrite IH, (IH (0 + getItemSize x)). lia.
Qed.

Lemma totalHeight_cons x items :
  totalHeight (x :: items) = getItemSize x + totalHeight items.
Proof.
  unfold totalHeight at 1. cbn [fold_left]. apply totalHeight_sum.
Qed.

Lemma totalHeight_app items1 items2 :
  totalHeight (items1 ++ items2) = totalHeight items1 + totalHeight items2.
Proof.
  induction items1 as [|x rest IH]; [reflexivity|].
  cbn [app]. rewrite !totalHeight_cons, IH. lia.
Qed.

Lemma result_rows_size start i results :
  length (result_rows start i results) = length results /\
  totalHeight (result_rows start i results) = ITEM_HEIGHT * length results.
Proof.
  revert i. induction results as [|r rest IH]; intros i; [split; reflexivity|].
  cbn [result_rows length]. rewrite totalHeight_cons.
  destruct (IH (S i)) as [-> ->]. cbn [getItemSize]. split; lia.
Qed.

Lemma flatten_groups_size total groupIndex groups :
  groupIndex + length groups = total ->
  length (flatten_groups total groupIndex groups) =
    length (displayed groups) + length groups + (length groups - 1) /\
  totalHeight (flatten_groups total groupIndex groups) =
    ITEM_HEIGHT * length (displayed groups) + HEADER_HEIGHT * length groups
    + SEPARATOR_HEIGHT * (length groups - 1).
Proof.
  revert groupIndex. induction groups as [|g rest IH]; intros gi Htotal;
    [split; reflexivity|].
  cbn [length] in Htotal. cbn [flatten_groups]. unfold displayed. cbn [flat_map].
  destruct (IH (S gi) ltac:(lia)) as [Hlen Hheight].
  rewrite !length_app, !totalHeight_app, Hlen, Hheight.
  cbn [length]. rewrite totalHeight_cons.
  destruct (result_rows_size (startIndex g) 0 (g_results g)) as [-> ->].
  cbn [getItemSize]. fold (displayed rest).
  destruct (Nat.ltb_spec gi (total - 1)) as [Hlt|Hge].
  - destruct rest as [|g' rest']; [cbn [length] in Htotal; lia|].
    cbn [length]. change (totalHeight [SeparatorItem]) with SEPARATOR_HEIGHT.
    unfold ITEM_HEIGHT, HEADER_HEIGHT, SEPARATOR_HEIGHT. split; lia.
  - destruct rest as [|g' rest']; [|cbn [length] in Htotal; lia].
    cbn [length displayed flat_map]. change (totalHeight []) with 0.
    unfold ITEM_HEIGHT, HEADER_HEIGHT, SEPARATOR_HEIGHT. split; lia.
Qed.

Lemma groupedResults_count results :
  length (displayed (groupedResults results)) = length results /\
  length (groupedResults results) <= 8 /\
  (results <> [] -> 1 <= length (groupedResults results)).
Proof.
  assert (Hperm : displayed (groupedResults results) ≡ₚ results).
  { rewrite groupedResults_displayed. apply flat_map_of_type_perm. }
  split; [by rewrite Hperm|]. split.
  - pose proof (collect_groups_types typeOrder (build_typeMap results) 0) as Hsub.
    apply sublist_length in Hsub. rewrite length_map in Hsub. exact Hsub.
  - intros Hne. destruct (groupedResults results) as [|g gs] eqn:E;
      [|cbn [length]; lia].
    cbn in Hperm. apply Permutation_nil_l in Hperm. congruence.
Qed.

(** X2. The list holds one row per result, one header per group and one
    separator between two groups; at most eight groups exist. Its height
    is 56 px per result, 32 px per header and 9 px per separator, and the
    height given to the virtual list never exceeds 480 px. *)
Theorem list_rows_and_height :
  forall results : list SearchResult,
    let groups := groupedResults results in
    let items := flattenedItems groups in
    length items = length results + length groups + (length groups - 1) /\
    totalHeight items =
      56 * length results + 32 * length groups + 9 * (length groups - 1) /\
    length groups <= 8 /\
    (1 <= length groups \/ results = []) /\
    listHeight items <= 480 /\
    listHeight items <= totalHeight items.
Proof.
  intros results groups items.
  destruct (flatten_groups_size (length groups) 0 groups eq_refl) as [Hlen Hh].
  destruct (groupedResults_count results) as (Hcount & Hmax & Hmin).
  fold groups in Hcount, Hmax, Hmin. fold (flattenedItems groups) in Hlen, Hh.
  fold items in Hlen, Hh. rewrite Hcount in Hlen, Hh.
  split; [exact Hlen|]. split; [exact Hh|]. split; [exact Hmax|].
  split; [|unfold listHeight, MAX_HEIGHT; split; lia].
  destruct results as [|r rest]; [by right|left; by apply Hmin].
Qed.

Lemma findIndex_spec {A} (test : A -> bool) (l : list A) :
  (findIndex test l = (-1)%Z /\ Forall (fun x => test x = false) l) \/
  (exists i x, findIndex test l = Z.of_nat i /\ l !! i = Some x /\
               test x = true).
Proof.
  induction l as [|x rest IH].
  - left. split; [reflexivity|constructor].
  - cbn [findIndex]. destruct (test x) eqn:Hx.
    + right. exists 0, x. repeat split; assumption.
    + destruct IH as [[Hnone Hall]|(i & y & Hi & Hy & Hty)].
      * left. rewrite Hnone. split; [reflexivity|]. constructor; assumption.
      * right. exists (S i), y. rewrite Hi.
        destruct (Z.ltb_spec (Z.of_nat i) 0); [lia|].
        split; [lia|]. split; assumption.
Qed.

Lemma elem_of_rows_of data k items :
  ResultRow data k ∈ items <-> (data, k) ∈ rows_of items.
Proof.
  induction items as [|[t|d a|] rest IH]; cbn [rows_of].
  - split; intros H; by apply elem_of_nil in H.
  - rewrite elem_of_cons, IH. split; [intros [H|H]; [discriminate|exact H]|auto].
  - rewrite !elem_of_cons, IH. split.
    + intros [H|H]; [injection H as -> ->; by left|by right].
    + intros [H|H]; [injection H as -> ->; by left|by right].
  - rewrite elem_of_cons, IH. split; [intros [H|H]; [discriminate|exact H]|auto].
Qed.

Lemma elem_of_numbered r k from results :
  (r, k) ∈ numbered from results <->
  from <= k /\ results !! (k - from) = Some r.
Proof.
  revert from. induction results as [|x rest IH]; intros from; cbn [numbered].
  - split; [intros H; by apply elem_of_nil in H|intros [_ H]; discriminate].
  - rewrite elem_of_cons, IH. split.
    + intros [H|[Hle Hk]].
      * injection H as -> ->. split; [lia|]. by rewrite Nat.sub_diag.
      * split; [lia|]. replace (k - from) with (S (k - S from)) by lia.
        exact Hk.
    + intros [Hle Hk]. destruct (decide (k = from)) as [->|Hne].
      * left. rewrite Nat.sub_diag in Hk. cbn in Hk. by injection Hk as ->.
      * right. split; [lia|].
        replace (k - from) with (S (k - S from)) in Hk by lia. exact Hk.
Qed.

(** X3. When the selection changes, the list scrolls to the row of the
    result at that display position: for a selection inside the list the
    scroll target exists and is the row holding the displayed result with
    that index; for a selection outside the list nothing is scrolled. *)
Theorem scroll_follows_selection :
  forall (results : list SearchResult) (selectedIndex : Z),
    let groups := groupedResults results in
    let items := flattenedItems groups in
    ((0 <= selectedIndex < Z.of_nat (length results))%Z ->
     exists flatIndex data,
       scroll_target selectedIndex items = Some flatIndex /\
       items !! flatIndex = Some (ResultRow data (Z.to_nat selectedIndex)) /\
       displayed groups !! Z.to_nat selectedIndex = Some data) /\
    ((selectedIndex < 0 \/ Z.of_nat (length results) <= selectedIndex)%Z ->
     scroll_target selectedIndex items = None).
Proof.
  intros results sel groups items.
  pose proof (rows_numbered_in_display_order_aux results) as Hrows.
  fold groups in Hrows. fold items in Hrows.
  destruct (groupedResults_count results) as (Hcount & _). fold groups in Hcount.
  split.
  - intros Hsel. unfold scroll_target.
    destruct (Z.leb_spec 0 sel) as [_|]; [|lia].
    destruct (lookup_lt_is_Some_2 (displayed groups) (Z.to_nat sel)
                ltac:(lia)) as [data Hdata].
    assert (Hin : ResultRow data (Z.to_nat sel) ∈ items).
    { apply elem_of_rows_of. rewrite Hrows. apply elem_of_numbered.
      split; [lia|]. by rewrite Nat.sub_0_r. }
    destruct (findIndex_spec (is_selected_row sel) items)
      as [[_ Hall]|(i & x & Hi & Hx & Htest)].
    + rewrite Forall_forall in Hall. specialize (Hall _ Hin).
      cbn in Hall. apply Z.eqb_neq in Hall. lia.
    + rewrite Hi. destruct (Z.leb_spec 0 (Z.of_nat i)); [|lia].
      rewrite Nat2Z.id. destruct x as [t|d a|]; try discriminate.
      cbn in Htest. apply Z.eqb_eq in Htest.
      assert (a = Z.to_nat sel) as -> by lia.
      assert (Hd : (d, Z.to_nat sel) ∈ rows_of items).
      { apply elem_of_rows_of, list_elem_of_lookup. eauto. }
      rewrite Hrows in Hd. apply elem_of_numbered in Hd as [_ Hd].
      rewrite Nat.sub_0_r, Hdata in Hd. injection Hd as ->.
      exists i, d. repeat split; assumption.
  - intros Hout. unfold scroll_target.
    destruct (Z.leb_spec 0 sel) as [Hpos|]; [|reflexivity].
    destruct (findIndex_spec (is_selected_row sel) items)
      as [[-> _]|(i & x & Hi & Hx & Htest)]; [reflexivity|].
    exfalso. destruct x as [t|d a|]; try discriminate.
    cbn in Htest. apply Z.eqb_eq in Htest.
    assert (Hd : (d, a) ∈ rows_of items).
    { apply elem_of_rows_of, list_elem_of_lookup. eauto. }
    rewrite Hrows in Hd. apply elem_of_numbered in Hd as [_ Hd].
    apply lookup_lt_Some in Hd. lia.
Qed.

Lemma scroll_follows_selection_witness :
  let results := Scenario.calculator_then_file in
  (0 <= 1 < Z.of_nat (length results))%Z /\
  exists flatIndex data,
    scroll_target 1 (flattenedItems (groupedResults results)) = Some flatIndex /\
    flattenedItems (groupedResults results) !! flatIndex
      = Some (ResultRow data (Z.to_nat 1)) /\
    displayed (groupedResults results) !! Z.to_nat 1 = Some data.
Proof.
  assert (H : (0 <= 1 < Z.of_nat (length Scenario.calculator_then_file))%Z)
    by (cbn; lia).
  split; [exact H|].
  exact (proj1 (scroll_follows_selection Scenario.calculator_then_file 1) H).
Defined.

Lemma ranked_from_weaken lo lo' results :
  lo' <= lo -> ranked_from lo results -> ranked_from lo' results.
Proof.
  destruct results as [|r rest]; [trivial|].
  cbn [ranked_from]. intros Hle [Hlo Hrest]. split; [lia|exact Hrest].
Qed.

Lemma ranked_from_lower lo results :
  ranked_from lo results -> Forall (fun r => lo <= rank (type r)) results.
Proof.
  revert lo. induction results as [|r rest IH]; intros lo; [constructor|].
  cbn [ranked_from]. intros [Hlo Hrest]. constructor; [exact Hlo|].
  eapply Forall_impl; [apply IH, Hrest|]. cbn beta. intros; lia.
Qed.

Lemma ranked_from_app lo k l1 l2 :
  Forall (fun r => rank (type r) = k) l1 -> lo <= k ->
  ranked_from k l2 -> ranked_from lo (l1 ++ l2).
Proof.
  intros Hall Hlo Hl2. revert lo Hlo.
  induction Hall as [|r rest Hr _ IH]; intros lo Hlo; cbn [app].
  - eapply ranked_from_weaken; eassumption.
  - cbn [ranked_from]. split; [lia|]. apply IH. lia.
Qed.

Lemma of_type_rank ty results :
  Forall (fun r => rank (type r) = rank ty) (of_type ty results).
Proof.
  unfold of_type. apply Forall_forall. intros r Hr.
  apply list_elem_of_filter in Hr as [-> _]. reflexivity.
Qed.

(** The displayed sequence runs through the types in the order of
    [typeOrder]. *)
Lemma displayed_ranked results :
  ranked_from 0 (displayed (groupedResults results)).
Proof.
  rewrite groupedResults_displayed. unfold typeOrder. cbn [flat_map].
  repeat (eapply ranked_from_app;
          [apply of_type_rank | cbn [rank]; lia | cbn [rank]]).
  exact I.
Qed.

Lemma rank_inj ty1 ty2 : rank ty1 = rank ty2 -> ty1 = ty2.
Proof. destruct ty1, ty2; cbn; intros H; congruence. Qed.

Lemma of_type_lower_empty ty lo results :
  Forall (fun r => lo <= rank (type r)) results -> rank ty < lo ->
  of_type ty results = [].
Proof.
  intros Hall Hlt. unfold of_type.
  induction Hall as [|r rest Hr _ IH]; [reflexivity|].
  rewrite filter_cons, IH.
  destruct (decide (type r = ty)) as [<-|_]; [lia|reflexivity].
Qed.

Lemma flat_map_of_type_first order x rest :
  StronglySorted (fun a b => rank a < rank b) order ->
  type x ∈ order ->
  Forall (fun r => rank (type x) <= rank (type r)) rest ->
  flat_map (fun ty => of_type ty (x :: rest)) order =
  x :: flat_map (fun ty => of_type ty rest) order.
Proof.
  intros Hsorted Hin Hrest.
  induction Hsorted as [|ty order' Hsorted' IH Hty]; [by apply elem_of_nil in Hin|].
  cbn [flat_map]. destruct (decide (type x = ty)) as [<-|Hne].
  - rewrite of_type_cons_same. cbn [app]. f_equal. f_equal.
    apply flat_map_of_type_absent. intros Habs.
    rewrite Forall_forall in Hty. specialize (Hty _ Habs). lia.
  - apply elem_of_cons in Hin as [Heq|Hin]; [congruence|].
    assert (Hlt : rank ty < rank (type x)).
    { rewrite Forall_forall in Hty. exact (Hty _ Hin). }
    rewrite (of_type_cons_other ty x rest Hne).
    rewrite (of_type_lower_empty ty _ rest Hrest Hlt). cbn [app].
    apply IH, Hin.
Qed.

Lemma typeOrder_sorted : StronglySorted (fun a b => rank a < rank b) typeOrder.
Proof.
  unfold typeOrder.
  repeat (constructor; [|repeat constructor; cbn [rank]; lia]).
  constructor.
Qed.

Lemma ranked_displayed_same results :
  ranked_from 0 results -> displayed (groupedResults results) = results.
Proof.
  rewrite groupedResults_displayed. generalize 0.
  induction results as [|x rest IH]; intros lo Hranked.
  - reflexivity.
  - destruct Hranked as [_ Hrest].
    rewrite flat_map_of_type_first;
      [|apply typeOrder_sorted|apply typeOrder_complete
       |apply ranked_from_lower, Hrest].
    f_equal. exact (IH _ Hrest).
Qed.

(** X4. Grouping leaves the order of the results as it is exactly when
    the results already come grouped in the order RecentFile, File,
    Application, QuickAction, Calculator, Bookmark, Clipboard, WebSearch.
    For such lists the row at display position [i] holds [results[i]],
    the result that Enter executes for [selectedIndex = i]; for any other
    list some display position holds a different result. *)
Theorem display_order_is_input_order_iff_ranked :
  forall results : list SearchResult,
    displayed (groupedResults results) = results <-> ranked_from 0 results.
Proof.
  intros results. split.
  - intros Heq. rewrite <- Heq. apply displayed_ranked.
  - apply ranked_displayed_same.
Qed.

Lemma display_order_is_input_order_iff_ranked_witness :
  let results := rev Scenario.calculator_then_file in
  ranked_from 0 results /\ displayed (groupedResults results) = results.
Proof.
  assert (H : ranked_from 0 (rev Scenario.calculator_then_file))
    by (cbn; lia).
  split; [exact H|].
  exact (proj2 (display_order_is_input_order_iff_ranked
                  (rev Scenario.calculator_then_file)) H).
Defined.

End ResultRowsFacts.

(** ** Highlighting: the spans *)

Section HighlightSpans.

Import Js Highlight ResultItem.

Lemma key_below_mono i j k : i <= j -> key_below i k -> key_below j k.
Proof. destruct k; cbn; lia. Qed.

Lemma key_below_fresh i k ks :
  Forall (key_below i) ks -> ~ key_below i k -> k ∉ ks.
Proof.
  intros Hall Hk Hin. rewrite Forall_forall in Hall. exact (Hk (Hall _ Hin)).
Qed.

Lemma forEach_index_keys text idxs :
  forall i elements last,
    NoDup (map key elements) -> Forall (key_below i) (map key elements) ->
    NoDup (map key (fst (forEach_index text idxs i elements last))) /\
    Forall (key_below (i + length idxs))
           (map key (fst (forEach_index text idxs i elements last))).
Proof.
  induction idxs as [|index rest IH]; intros i elements last Hnd Hbelow.
  - cbn [forEach_index fst length]. rewrite Nat.add_0_r. split; assumption.
  - cbn [forEach_index length].
    replace (i + S (length rest)) with (S i + length rest) by lia.
    apply IH.
    + destruct (last <? index); rewrite ?map_app; cbn [map key].
      * rewrite <- app_assoc. cbn [app].
        apply NoDup_app. split; [exact Hnd|]. split.
        -- intros k Hk Hin. rewrite Forall_forall in Hbelow.
           specialize (Hbelow _ Hk).
           apply elem_of_cons in Hin as [->|Hin]; [cbn in Hbelow; lia|].
           apply list_elem_of_singleton in Hin as ->. cbn in Hbelow. lia.
        -- apply NoDup_cons. split; [|apply NoDup_singleton].
           intros Hin. apply list_elem_of_singleton in Hin. discriminate.
      * apply NoDup_app. split; [exact Hnd|]. split; [|apply NoDup_singleton].
        intros k Hk Hin. apply list_elem_of_singleton in Hin as ->.
        rewrite Forall_forall in Hbelow. specialize (Hbelow _ Hk).
        cbn in Hbelow. lia.
    + destruct (last <? index); rewrite ?map_app; cbn [map key];
        rewrite ?Forall_app; repeat split;
        try (eapply Forall_impl; [exact Hbelow|];
             intros k Hk; eapply key_below_mono; [|exact Hk]; lia);
        repeat constructor.
Qed.

(** X5. The React keys of the spans [highlightMatches] emits are pairwise
    distinct, whatever the target and the indexes. *)
Theorem highlight_keys_distinct :
  forall result : option FuzzyResult,
    NoDup (map key (spans_of (highlightMatches result))).
Proof.
  intros [r|]; [|constructor]. unfold highlightMatches.
  destruct (target r) as [|c0 t0]; [constructor|].
  destruct (indexes r) as [|i0 rest]; [constructor|].
  set (text := c0 :: t0). set (idxs := i0 :: rest).
  destruct (forEach_index_keys text idxs 0 [] 0) as [Hnd Hbelow];
    [constructor|constructor|].
  destruct (forEach_index text idxs 0 [] 0) as [elements last].
  cbn [fst] in Hnd, Hbelow. cbn [spans_of].
  destruct (last <? length text); [|exact Hnd].
  rewrite map_app. cbn [map key]. apply NoDup_app.
  split; [exact Hnd|]. split; [|apply NoDup_singleton].
  intros k Hk Hin. apply list_elem_of_singleton in Hin as ->.
  rewrite Forall_forall in Hbelow. exact (Hbelow _ Hk).
Qed.

Lemma highlighted_contents_app els1 els2 :
  highlighted_contents (els1 ++ els2) =
  highlighted_contents els1 ++ highlighted_contents els2.
Proof. unfold highlighted_contents. by rewrite List.filter_app, map_app. Qed.

Lemma plain_contents_app els1 els2 :
  plain_contents (els1 ++ els2) = plain_contents els1 ++ plain_contents els2.
Proof. unfold plain_contents. by rewrite List.filter_app, map_app. Qed.

Lemma forEach_index_highlighted text idxs :
  forall i elements last,
    highlighted_contents (fst (forEach_index text idxs i elements last)) =
    highlighted_contents elements ++ map (char_at text) idxs.
Proof.
  induction idxs as [|index rest IH]; intros i elements last.
  - cbn [forEach_index fst map]. by rewrite app_nil_r.
  - cbn [forEach_index map]. rewrite IH.
    destruct (last <? index); rewrite !highlighted_contents_app;
      cbn; rewrite <- ?app_assoc; reflexivity.
Qed.

Lemma forEach_index_plain text idxs :
  forall i elements last,
    increasing_from last idxs ->
    Forall (fun j => j < length text) idxs ->
    Forall (fun s => s <> []) (plain_contents elements) ->
    Forall (fun s => s <> [])
           (plain_contents (fst (forEach_index text idxs i elements last))).
Proof.
  induction idxs as [|index rest IH]; intros i elements last Hinc Hlt Hplain.
  - exact Hplain.
  - destruct Hinc as [Hle Hinc]. inversion Hlt as [|? ? Hidx Hrest]; subst.
    cbn [forEach_index]. apply IH.
    + replace (index + 1) with (S index) by lia. exact Hinc.
    + exact Hrest.
    + destruct (Nat.ltb_spec last index) as [Hl|Hl];
        rewrite !plain_contents_app; cbn; rewrite ?app_nil_r; [|exact Hplain].
      apply Forall_app. split; [exact Hplain|]. constructor; [|constructor].
      rewrite substring_take_drop by lia.
      intros Hnil. apply (f_equal length) in Hnil.
      rewrite length_take, length_drop in Hnil. cbn in Hnil. lia.
Qed.

(** X6. For a non-empty target, [highlightMatches] emits exactly one
    highlight span per match index, in order, holding the code unit at
    that index (nothing when the index is past the end); with increasing
    indexes inside the target every highlight span holds one code unit and
    no plain span is empty. *)
Theorem highlight_one_span_per_index :
  forall r : FuzzyResult,
    target r <> [] ->
    highlighted_contents (spans_of (highlightMatches (Some r))) =
      map (char_at (target r)) (indexes r) /\
    (valid_indexes r ->
     Forall (fun s => length s = 1)
            (highlighted_contents (spans_of (highlightMatches (Some r)))) /\
     Forall (fun s => s <> [])
            (plain_contents (spans_of (highlightMatches (Some r))))).
Proof.
  intros r Htarget.
  assert (Hhl : highlighted_contents (spans_of (highlightMatches (Some r))) =
                map (char_at (target r)) (indexes r)).
  { unfold highlightMatches. destruct (target r) as [|c0 t0]; [congruence|].
    destruct (indexes r) as [|i0 rest]; [reflexivity|].
    set (text := c0 :: t0). set (idxs := i0 :: rest).
    pose proof (forEach_index_highlighted text idxs 0 [] 0) as H.
    destruct (forEach_index text idxs 0 [] 0) as [elements last].
    cbn [fst] in H. cbn [spans_of].
    destruct (last <? length text); [|exact H].
    rewrite highlighted_contents_app, H. cbn. by rewrite app_nil_r. }
  split; [exact Hhl|]. intros [Hinc Hlt]. split.
  - rewrite Hhl. apply Forall_map. eapply Forall_impl; [exact Hlt|].
    intros j Hj. unfold char_at.
    destruct (lookup_lt_is_Some_2 (target r) j Hj) as [c ->]. reflexivity.
  - unfold highlightMatches. destruct (target r) as [|c0 t0]; [congruence|].
    destruct (indexes r) as [|i0 rest]; [constructor|].
    set (text := c0 :: t0) in *. set (idxs := i0 :: rest) in *.
    pose proof (forEach_index_plain text idxs 0 [] 0 Hinc Hlt
                  ltac:(constructor)) as Hplain.
    pose proof (forEach_index_marks text idxs 0 [] 0 Hinc Hlt ltac:(lia))
      as Hmarks.
    destruct (forEach_index text idxs 0 [] 0) as [elements last].
    cbn [fst] in Hplain. destruct Hmarks as [Hbound _]. cbn [spans_of].
    destruct (Nat.ltb_spec last (length text)) as [Hl|Hl]; [|exact Hplain].
    rewrite plain_contents_app. apply Forall_app. split; [exact Hplain|].
    cbn. constructor; [|constructor]. unfold substring_from.
    intros Hnil. apply (f_equal length) in Hnil.
    rewrite length_drop in Hnil. change (length (@nil N)) with 0 in Hnil. lia.
Qed.

Lemma highlight_one_span_per_index_witness :
  target document_match <> [] /\
  valid_indexes document_match /\
  highlighted_contents (spans_of (highlightMatches (Some document_match))) =
    [str "D"; str "o"; str "c"] /\
  Forall (fun s => s <> [])
         (plain_contents (spans_of (highlightMatches (Some document_match)))).
Proof.
  assert (H : target document_match <> []) by discriminate.
  split; [exact H|]. split; [exact document_match_valid|].
  destruct (highlight_one_span_per_index document_match H) as [Hhl Hrest].
  split; [rewrite Hhl; reflexivity|].
  exact (proj2 (Hrest document_match_valid)).
Defined.

End HighlightSpans.

(** ** One result row *)

Section ResultItemFacts.

Import Js Highlight ResultGroup ResultItem.

Lemma textContent_RText (s : jsstring) : textContent (RText s) = s.
Proof.
  unfold textContent, marks. rewrite map_map. cbn [fst]. apply map_id.
Qed.

Lemma textContent_match r :
  valid_indexes r -> textContent (highlightMatches (Some r)) = target r.
Proof.
  intros Hvalid. unfold textContent.
  rewrite highlightMatches_marks by exact Hvalid. apply mark_from_fst.
Qed.

Lemma increasing_from_seq lo n : increasing_from lo (seq lo n).
Proof.
  revert lo. induction n as [|n IH]; intros lo; [exact I|].
  cbn [seq increasing_from]. split; [lia|apply IH].
Qed.

Lemma is_prefix_length q t : is_prefix q t = true -> length q <= length t.
Proof.
  revert t. induction q as [|c q IH]; intros t H; [cbn; lia|].
  destruct t as [|d t]; [discriminate|].
  cbn [is_prefix] in H. apply andb_true_iff in H as [_ H].
  cbn [length]. specialize (IH _ H). lia.
Qed.

Lemma prefix_single_contract : fuzzysort_contract prefix_single.
Proof.
  intros query text r. unfold prefix_single.
  destruct (is_prefix query text) eqn:Hp; [|discriminate].
  intros H. injection H as <-. cbn [target indexes]. split; [reflexivity|].
  split; cbn [target indexes]; [apply increasing_from_seq|].
  apply Forall_forall. intros j Hj.
  apply list_elem_of_In, in_seq in Hj. apply is_prefix_length in Hp. lia.
Qed.

(** X7. Whatever the query, the title a row shows reads as the title of
    its result: the highlighted rendering is used when there is one, and
    the plain title when the query is absent or empty, the title is
    empty or fuzzysort finds no match. *)
Theorem row_title_reads_as_title :
  forall (single : jsstring -> jsstring -> option FuzzyResult)
         (query : option jsstring) (result : SearchResult),
    fuzzysort_contract single ->
    textContent (row_title single query result) = title result.
Proof.
  intros single query result Hcontract. unfold row_title, highlightedTitle.
  destruct query as [[|c q]|]; cbn [title_node];
    try apply textContent_RText.
  destruct (truthy (highlightText single (title result) (c :: q))) eqn:Ht;
    [|apply textContent_RText].
  unfold highlightText in *. destruct (title result) as [|t0 ts] eqn:Etitle;
    [discriminate Ht|].
  destruct (single (c :: q) (t0 :: ts)) as [r|] eqn:Hmatch;
    [|discriminate Ht].
  destruct (Hcontract _ _ _ Hmatch) as [Htarget Hvalid].
  rewrite textContent_match by exact Hvalid. exact Htarget.
Qed.

Lemma row_title_reads_as_title_witness :
  fuzzysort_contract prefix_single /\
  textContent (row_title prefix_single (Some (str "a"))
                 (Scenario.file_result "a.txt" 90)) = str "a.txt" /\
  truthy (highlightText prefix_single (str "a.txt") (str "a")) = true.
Proof.
  split; [exact prefix_single_contract|]. split; [|reflexivity].
  exact (row_title_reads_as_title prefix_single (Some (str "a"))
           (Scenario.file_result "a.txt" 90) prefix_single_contract).
Defined.

(** X8. Different result types get different group headers and different
    badges. *)
Theorem headers_and_badges_tell_types_apart :
  forall t1 t2 : ResultType,
    t1 <> t2 ->
    getGroupTitle t1 <> getGroupTitle t2 /\ getBadgeText t1 <> getBadgeText t2.
Proof.
  intros t1 t2 Hne.
  split; intros H; apply Hne; destruct t1, t2; try reflexivity;
    vm_compute in H; discriminate H.
Qed.

Lemma headers_and_badges_tell_types_apart_witness :
  Calculator <> File /\
  getGroupTitle Calculator <> getGroupTitle File /\
  getBadgeText Calculator <> getBadgeText File.
Proof.
  assert (H : Calculator <> File) by discriminate.
  split; [exact H|].
  exact (headers_and_badges_tell_types_apart Calculator File H).
Defined.

End ResultItemFacts.

(** ** The search bar as a whole *)

Section SearchBarFacts.

Import Js UseSearch SearchBar KeyHandling SearchBarView.

Variable execute_result : SearchResult -> unit + value.

(** Executing a result writes to the console and may start the closing
    animation; the selection and the results stay as they are. *)
Lemma handleExecuteResult_frame ui :
  fst (handleExecuteResult execute_result ui) = inl tt /\
  selectedIndex (snd (handleExecuteResult execute_result ui)) = selectedIndex ui /\
  results (hook (snd (handleExecuteResult execute_result ui))) = results (hook ui).
Proof.
  unfold handleExecuteResult, bind, get.
  destruct ((0 <? length (results (hook ui)))%nat && (0 <=? selectedIndex ui)%Z
            && (selectedIndex ui <? Z.of_nat (length (results (hook ui))))%Z);
    [|repeat split].
  destruct (results (hook ui) !! Z.to_nat (selectedIndex ui)) as [r|];
    [|repeat split].
  unfold try_catch, bind, lift.
  destruct (execute_result r) as [[]|err];
    [rewrite executeResult_success | rewrite executeResult_failure];
    repeat split.
Qed.

Lemma detach_handleExecuteResult ui :
  detach (handleExecuteResult execute_result) ui =
  handleExecuteResult execute_result ui.
Proof.
  unfold detach, try_catch.
  destruct (handleExecuteResult_frame ui) as (Hfst & _).
  destruct (handleExecuteResult execute_result ui) as [[[]|e] ui'];
    [reflexivity|discriminate Hfst].
Qed.








Lemma handleExecuteResult_success ui r :
  (0 <= selectedIndex ui)%Z ->
  results (hook ui) !! Z.to_nat (selectedIndex ui) = Some r ->
  execute_result r = inl tt ->
  handleExecuteResult execute_result ui =
  (inl tt,
   {| hook := console_push
                (ConsoleLog (str "Result executed successfully:") (title r))
                (hook ui);
      selectedIndex := selectedIndex ui;
      isAnimatingOut := true;
      closeTimeouts := S (closeTimeouts ui) |}).
Proof.
  intros Hi Hsel Hok. unfold handleExecuteResult, bind, get.
  rewrite (selection_guard _ _ _ Hi Hsel), Hsel, Hok.
  unfold try_catch, bind, lift. rewrite executeResult_success. reflexivity.
Qed.


(** X11. A click on a row executes the result the keyboard selection
    names, whichever row was clicked: the index of the row is not used.
    Moving the mouse over a row changes nothing. *)
Theorem click_executes_the_selected_result :
  forall (ui : Ui) (clicked : nat) (r : SearchResult),
    (0 <= selectedIndex ui)%Z ->
    results (hook ui) !! Z.to_nat (selectedIndex ui) = Some r ->
    execute_result r = inl tt ->
    handleClick execute_result clicked ui =
      (inl tt,
       {| hook := console_push
                    (ConsoleLog (str "Result executed successfully:") (title r))
                    (hook ui);
          selectedIndex := selectedIndex ui;
          isAnimatingOut := true;
          closeTimeouts := S (closeTimeouts ui) |}) /\
    handleMouseEnter clicked ui = (inl tt, ui).
Proof.
  intros ui clicked r Hpos Hr Hok. split; [|reflexivity].
  unfold handleClick, onSelectResult, onExecuteResult, bind, ret.
  rewrite detach_handleExecuteResult.
  apply handleExecuteResult_success; assumption.
Qed.

(** X12. Enter does nothing at all when there is nothing to execute: with
    an empty list, or with a selection outside the list, no request is
    made, nothing is logged and the window stays as it is. *)
Theorem enter_with_nothing_selected_does_nothing :
  forall ui : Ui,
    (results (hook ui) = [] \/ (selectedIndex ui < 0)%Z \/
     (Z.of_nat (length (results (hook ui))) <= selectedIndex ui)%Z) ->
    handleExecuteResult execute_result ui = (inl tt, ui).
Proof.
  intros ui Hout. unfold handleExecuteResult, bind, get.
  destruct ((0 <? length (results (hook ui)))%nat && (0 <=? selectedIndex ui)%Z
            && (selectedIndex ui <? Z.of_nat (length (results (hook ui))))%Z)
    eqn:Hguard; [|reflexivity].
  exfalso. rewrite !andb_true_iff in Hguard. destruct Hguard as [[H1 H2] H3].
  apply Nat.ltb_lt in H1. apply Z.leb_le in H2. apply Z.ltb_lt in H3.
  destruct Hout as [Hnil|[Hneg|Hbig]]; [rewrite Hnil in H1; cbn in H1|..]; lia.
Qed.

(** X13. The results area is never blank: the skeleton, the "No results
    found" message, the result list or the "Type to search" hint is
    shown. While loading only the skeleton is shown, and the "No results
    found" message never appears together with the list or the hint. *)
Theorem results_area_never_blank :
  forall h : Hook,
    skeleton (panels h) || noResults (panels h) || resultGroup (panels h)
      || typeToSearch (panels h) = true /\
    skeleton (panels h)
      && (noResults (panels h) || resultGroup (panels h)
          || typeToSearch (panels h)) = false /\
    noResults (panels h)
      && (resultGroup (panels h) || typeToSearch (panels h)) = false.
Proof.
  intros h. unfold panels. cbn [skeleton noResults resultGroup typeToSearch].
  destruct (isLoading h), (nonempty (query h)),
    (results h) as [|r rest]; cbn; repeat split.
Qed.

End SearchBarFacts.

Section SearchBarWitnesses.

Import Js UseSearch SearchBar KeyHandling SearchBarView Scenario Scenario2.


Lemma click_executes_the_selected_result_witness :
  (0 <= selectedIndex showing_results)%Z /\
  results (hook showing_results) !! Z.to_nat (selectedIndex showing_results)
    = Some (file_result "a.txt" 90) /\
  accepts_all (file_result "a.txt" 90) = inl tt /\
  fst (handleClick accepts_all 1 showing_results) = inl tt /\
  console (hook (snd (handleClick accepts_all 1 showing_results))) =
    [ConsoleLog (str "Result executed successfully:") (str "a.txt")].
Proof.
  assert (H1 : (0 <= selectedIndex showing_results)%Z) by (cbn; lia).
  assert (H2 : results (hook showing_results)
                 !! Z.to_nat (selectedIndex showing_results)
               = Some (file_result "a.txt" 90)) by reflexivity.
  assert (H3 : accepts_all (file_result "a.txt" 90) = inl tt) by reflexivity.
  split; [exact H1|]. split; [exact H2|]. split; [exact H3|].
  destruct (click_executes_the_selected_result accepts_all showing_results 1
              (file_result "a.txt" 90) H1 H2 H3) as [Hclick _].
  rewrite Hclick. split; reflexivity.
Defined.

Lemma enter_with_nothing_selected_does_nothing_witness :
  results (hook ui_initial) = [] /\
  handleExecuteResult accepts_all ui_initial = (inl tt, ui_initial).
Proof.
  split; [reflexivity|].
  exact (enter_with_nothing_selected_does_nothing accepts_all ui_initial
           (or_introl eq_refl)).
Defined.

End SearchBarWitnesses.

(** ** Keyboard selection: moving around the list *)

Section KeyboardMoves.

Import UseKeyboard.
Local Open Scope Z_scope.

Lemma step_moveDown_mod n i :
  1 <= n -> in_range n i -> step n MoveDown i = (i + 1) mod n.
Proof.
  intros Hn Hi. unfold in_range in Hi.
  unfold step, apply_call, moveDown, effect.
  destruct (Z.eqb_spec n 0); [lia|].
  destruct (Z.geb_spec i (n - 1)).
  - replace (i + 1) with n by lia. rewrite Z_mod_same_full.
    destruct (Z.geb_spec 0 n); [lia|reflexivity].
  - rewrite Z.mod_small by lia. destruct (Z.geb_spec (i + 1) n); lia.
Qed.

Lemma step_moveUp_mod n i :
  1 <= n -> in_range n i -> step n MoveUp i = (i - 1) mod n.
Proof.
  intros Hn Hi. unfold in_range in Hi.
  unfold step, apply_call, moveUp, effect.
  destruct (Z.eqb_spec n 0); [lia|].
  destruct (Z.leb_spec i 0).
  - replace (i - 1) with (-1) by lia.
    replace ((-1) mod n) with (n - 1).
    + destruct (Z.geb_spec (n - 1) n); lia.
    + apply Z.mod_unique with (q := -1); lia.
  - rewrite Z.mod_small by lia. destruct (Z.geb_spec (i - 1) n); lia.
Qed.

Lemma mod_in_range n x : 1 <= n -> in_range n (x mod n).
Proof.
  intros Hn. unfold in_range. pose proof (Z.mod_pos_bound x n). lia.
Qed.

(** X14. On a list with at least one item, [moveUp] undoes [moveDown] and
    [moveDown] undoes [moveUp], also across the wrap at the ends. *)
Theorem moveUp_and_moveDown_are_inverse :
  forall itemCount i : Z,
    1 <= itemCount -> in_range itemCount i ->
    step itemCount MoveUp (step itemCount MoveDown i) = i /\
    step itemCount MoveDown (step itemCount MoveUp i) = i.
Proof.
  intros n i Hn Hi. split.
  - rewrite (step_moveDown_mod n i Hn Hi).
    rewrite step_moveUp_mod by (try apply mod_in_range; assumption).
    rewrite Zminus_mod_idemp_l. replace (i + 1 - 1) with i by lia.
    unfold in_range in Hi. apply Z.mod_small. lia.
  - rewrite (step_moveUp_mod n i Hn Hi).
    rewrite step_moveDown_mod by (try apply mod_in_range; assumption).
    rewrite Zplus_mod_idemp_l. replace (i - 1 + 1) with i by lia.
    unfold in_range in Hi. apply Z.mod_small. lia.
Qed.

Lemma moveUp_and_moveDown_are_inverse_witness :
  1 <= 3 /\ in_range 3 2 /\
  step 3 MoveUp (step 3 MoveDown 2) = 2 /\
  step 3 MoveDown (step 3 MoveUp 0) = 0.
Proof.
  assert (H1 : 1 <= 3) by lia.
  assert (H2 : in_range 3 2) by (unfold in_range; lia).
  assert (H0 : in_range 3 0) by (unfold in_range; lia).
  split; [exact H1|]. split; [exact H2|]. split.
  - exact (proj1 (moveUp_and_moveDown_are_inverse 3 2 H1 H2)).
  - exact (proj2 (moveUp_and_moveDown_are_inverse 3 0 H1 H0)).
Defined.

Lemma run_repeat_moveDown n k i :
  1 <= n -> in_range n i ->
  run n (repeat MoveDown k) i = (i + Z.of_nat k) mod n.
Proof.
  intros Hn. revert i. induction k as [|k IH]; intros i Hi.
  - cbn [repeat run fold_left]. rewrite Z.add_0_r.
    unfold in_range in Hi. symmetry. apply Z.mod_small. lia.
  - change (run n (repeat MoveDown (S k)) i)
      with (run n (repeat MoveDown k) (step n MoveDown i)).
    rewrite (step_moveDown_mod n i Hn Hi), IH by (apply mod_in_range; exact Hn).
    rewrite Zplus_mod_idemp_l. f_equal. lia.
Qed.

Lemma run_repeat_moveUp n k i :
  1 <= n -> in_range n i ->
  run n (repeat MoveUp k) i = (i - Z.of_nat k) mod n.
Proof.
  intros Hn. revert i. induction k as [|k IH]; intros i Hi.
  - cbn [repeat run fold_left]. rewrite Z.sub_0_r.
    unfold in_range in Hi. symmetry. apply Z.mod_small. lia.
  - change (run n (repeat MoveUp (S k)) i)
      with (run n (repeat MoveUp k) (step n MoveUp i)).
    rewrite (step_moveUp_mod n i Hn Hi), IH by (apply mod_in_range; exact Hn).
    rewrite Zminus_mod_idemp_l. f_equal. lia.
Qed.

(** X15. The selection moves around the list like a clock hand: [k]
    presses of ArrowDown from position [i] lead to [(i + k) mod itemCount],
    [k] presses of ArrowUp to [(i - k) mod itemCount]; [itemCount] presses
    in either direction lead back to [i]. *)
Theorem selection_moves_modulo_itemCount :
  forall (itemCount i : Z) (k : nat),
    1 <= itemCount -> in_range itemCount i ->
    run itemCount (repeat MoveDown k) i = (i + Z.of_nat k) mod itemCount /\
    run itemCount (repeat MoveUp k) i = (i - Z.of_nat k) mod itemCount /\
    run itemCount (repeat MoveDown (Z.to_nat itemCount)) i = i /\
    run itemCount (repeat MoveUp (Z.to_nat itemCount)) i = i.
Proof.
  intros n i k Hn Hi.
  split; [apply run_repeat_moveDown; assumption|].
  split; [apply run_repeat_moveUp; assumption|].
  rewrite run_repeat_moveDown, run_repeat_moveUp by assumption.
  rewrite Z2Nat.id by lia. unfold in_range in Hi.
  replace (i + n) with (i + 1 * n) by lia.
  replace (i - n) with (i + (-1) * n) by lia.
  rewrite !Z_mod_plus_full. split; apply Z.mod_small; lia.
Qed.

Lemma selection_moves_modulo_itemCount_witness :
  1 <= 5 /\ in_range 5 3 /\
  run 5 (repeat MoveDown 4) 3 = 2 /\
  run 5 (repeat MoveUp 5) 3 = 3.
Proof.
  assert (H1 : 1 <= 5) by lia.
  assert (H2 : in_range 5 3) by (unfold in_range; lia).
  destruct (selection_moves_modulo_itemCount 5 3 4 H1 H2)
    as (Hdown & _ & _ & Hup).
  split; [exact H1|]. split; [exact H2|]. split.
  - rewrite Hdown. reflexivity.
  - exact Hup.
Defined.

(** X16. When the list changes length, the effect moves a selection that
    fell off the end to the last item and leaves any other selection
    alone: the new index is [min i (itemCount - 1)], or 0 for an empty
    list; running the effect again changes nothing. *)
Theorem effect_clamps_selection :
  forall itemCount i : Z,
    0 <= itemCount -> 0 <= i ->
    effect itemCount i = Z.max 0 (Z.min i (itemCount - 1)) /\
    effect itemCount (effect itemCount i) = effect itemCount i.
Proof.
  intros n i Hn Hi. split; [|apply effect_idempotent].
  unfold effect. destruct (Z.eqb_spec n 0); [lia|].
  destruct (Z.geb_spec i n); lia.
Qed.

Lemma effect_clamps_selection_witness :
  0 <= 3 /\ 0 <= 4 /\ effect 3 4 = 2.
Proof.
  assert (H1 : 0 <= 3) by lia. assert (H2 : 0 <= 4) by lia.
  split; [exact H1|]. split; [exact H2|].
  rewrite (proj1 (effect_clamps_selection 3 4 H1 H2)). reflexivity.
Defined.

End KeyboardMoves.

(** ** Runs of the search hook *)

Section SearchTraceFacts.

Import Js UseSearch SearchTraces.

Lemma run_app events1 events2 s :
  run (events1 ++ events2) s = run events2 (run events1 s).
Proof. unfold run. apply fold_left_app. Qed.

(** [setQuery] touches the query and the timers only. *)
Lemma setQuery_frame q s :
  controllers (setQuery q s) = controllers s /\
  abortControllerRef (setQuery q s) = abortControllerRef s /\
  calls (setQuery q s) = calls s /\
  isLoading (setQuery q s) = isLoading s /\
  now (setQuery q s) = now s.
Proof.
  unfold setQuery. destruct (decide (q = query s)); [repeat split|].
  unfold debounce_effect, clear_debounce.
  destruct (debounceTimerRef (setQueryState q s)) eqn:E; cbn in E |- *;
    rewrite ?E; cbn; repeat split; reflexivity.
Qed.

(** Time passing, in a well-formed state: either nothing runs, or the one
    pending timer runs [performSearch] with its query. *)
Lemma advance_cases dt s :
  wf s ->
  exists s0,
    controllers s0 = controllers s /\
    abortControllerRef s0 = abortControllerRef s /\
    calls s0 = calls s /\ isLoading s0 = isLoading s /\
    ((advance dt s = s0 /\ armed_count (timers s0) = armed_count (timers s)) \/
     (exists q, advance dt s = performSearch_start q s0 /\
                armed_count (timers s0) + length (sent_for q)
                = armed_count (timers s))).
Proof.
  intros [_ _ (ts & tm & Hts & Hidle & _)].
  rewrite (advance_last dt s ts tm Hts Hidle).
  assert (Hzero : armed_count ts = 0).
  { clear Hts. induction ts as [|t ts IH]; [reflexivity|].
    cbn [pending_count armed_count] in *.
    destruct (pending t); [lia|]. apply IH. lia. }
  assert (Happ : forall t, armed_count (ts ++ [t]) =
                 if pending t then length (sent_for (callback_query t)) else 0).
  { intros t. clear Hts Hidle. induction ts as [|t0 ts IH];
      cbn [app armed_count] in *; [lia|].
    destruct (pending t0); [|rewrite IH by lia; lia].
    assert (armed_count ts = 0) by lia. rewrite IH by assumption. lia. }
  destruct (pending tm && (deadline tm <=? now s + dt)) eqn:Hdue.
  - exists (with_now (now s + dt)
              (with_timers (ts ++ [switch_off tm]) (debounceTimerRef s) s)).
    do 4 (split; [reflexivity|]). right.
    exists (callback_query tm). split; [reflexivity|].
    cbn [timers with_now with_timers]. rewrite Hts, !Happ. cbn [pending switch_off].
    apply andb_true_iff in Hdue as [-> _]. lia.
  - exists (with_now (now s + dt)
              (with_timers (ts ++ [tm]) (debounceTimerRef s) s)).
    do 4 (split; [reflexivity|]). left.
    split; [reflexivity|]. cbn [timers with_now with_timers]. by rewrite Hts.
Qed.

(** A settling call, in a well-formed state. *)
Lemma settle_cases call outcome s :
  wf s ->
  controllers (settle call outcome s) = controllers s /\
  abortControllerRef (settle call outcome s) = abortControllerRef s /\
  timers (settle call outcome s) = timers s /\
  length (calls (settle call outcome s)) = length (calls s) /\
  (settle call outcome s = s \/ isLoading (settle call outcome s) = false).
Proof.
  intros Hwf. unfold settle.
  destruct (calls s !! call) as [[q []]|] eqn:E; try (repeat split; by left).
  destruct (in_flight_current s call q Hwf E) as (c & Href & Hctl).
  rewrite (performSearch_resume_live outcome _ c Href Hctl). cbn [snd].
  destruct (mark_settled_fields call s) as (Href' & Hctl' & Hts & _).
  assert (Hlen : length (calls (mark_settled call s)) = length (calls s)).
  { unfold mark_settled. rewrite E. cbn. apply length_insert. }
  destruct outcome; cbn; rewrite ?Href', ?Hctl', ?Hts, ?Hlen;
    repeat split; by right.
Qed.

Lemma performSearch_start_loading q s :
  isLoading (performSearch_start q s) = true ->
  calls (performSearch_start q s) !! length (calls s) = Some (q, false).
Proof.
  unfold performSearch_start, new_controller, abort_current.
  destruct (abortControllerRef s); destruct (trim q); cbn;
    try discriminate; intros _; apply list_lookup_middle; reflexivity.
Qed.

Lemma performSearch_start_keeps_calls q s call c :
  calls s !! call = Some c -> calls (performSearch_start q s) !! call = Some c.
Proof.
  intros H. rewrite performSearch_start_calls.
  destruct (trim q); [exact H|]. by apply lookup_app_l_Some.
Qed.

(** A general induction over the reachable states. *)
Lemma reachable_ind (P : Hook -> Prop) :
  P initial ->
  (forall s e, wf s -> P s -> P (step s e)) ->
  forall events, P (run events initial).
Proof.
  intros Hinit Hstep events.
  assert (Hgen : forall s, wf s -> P s -> P (run events s)).
  { induction events as [|e events IH]; intros s Hwf Hs; [exact Hs|].
    cbn [run fold_left]. apply IH; [apply step_wf, Hwf|apply Hstep; assumption]. }
  apply Hgen; [apply initial_wf|exact Hinit].
Qed.

(** X17. The loading flag is never stuck: in every reachable state of the
    hook, [isLoading] is set only while a [search_query] call is in
    flight. *)
Theorem loading_only_while_in_flight :
  forall events : list event,
    isLoading (run events initial) = true ->
    exists call q, calls (run events initial) !! call = Some (q, false).
Proof.
  apply (reachable_ind
           (fun s => isLoading s = true ->
                     exists call q, calls s !! call = Some (q, false))).
  - discriminate.
  - intros s e Hwf IH. destruct e as [q|dt|call outcome]; cbn [step].
    + destruct (setQuery_frame q s) as (_ & _ & Hc & Hl & _).
      rewrite Hc, Hl. exact IH.
    + destruct (advance_cases dt s Hwf)
        as (s0 & _ & _ & Hcalls & Hload & [[Heq _]|(q & Heq & _)]);
        rewrite Heq.
      * rewrite Hcalls, Hload. exact IH.
      * intros Hl. eexists _, _. apply performSearch_start_loading, Hl.
    + destruct (settle_cases call outcome s Hwf) as (_ & _ & _ & _ & [Heq|Heq]);
        rewrite Heq; [exact IH|discriminate].
Qed.

Lemma loading_only_while_in_flight_witness :
  isLoading (run [SetQuery (str "a"); Advance 150] initial) = true /\
  exists call q,
    calls (run [SetQuery (str "a"); Advance 150] initial) !! call
    = Some (q, false).
Proof.
  split; [reflexivity|].
  exact (loading_only_while_in_flight [SetQuery (str "a"); Advance 150] eq_refl).
Defined.

(** X18. In every reachable state of the hook at most one
    [AbortController] is live, the one in [abortControllerRef]: every
    search started earlier has had its controller aborted. *)
Theorem earlier_controllers_are_aborted :
  forall events : list event, one_live_controller (run events initial).
Proof.
  apply (reachable_ind one_live_controller).
  - left. split; reflexivity.
  - assert (Hstart : forall q s, one_live_controller s ->
                       one_live_controller (performSearch_start q s)).
    { intros q s Hs. right.
      assert (Hshape : exists n,
                controllers (new_controller (abort_current s))
                  = replicate n true ++ [false] /\
                abortControllerRef (new_controller (abort_current s)) = Some n).
      { unfold new_controller, abort_current.
        destruct Hs as [[Hc Hr]|(n & Hc & Hr)]; rewrite Hr; cbn.
        - rewrite Hc. exists 0. split; reflexivity.
        - rewrite Hc. exists (S n).
          rewrite insert_app_r_alt by (rewrite length_replicate; lia).
          rewrite length_replicate, Nat.sub_diag. cbn [insert list_insert].
          rewrite length_app, length_replicate. cbn [length].
          split; [|f_equal; lia].
          replace (replicate (S n) true) with (replicate n true ++ [true]);
            [reflexivity|].
          clear. induction n as [|n IH]; [reflexivity|].
          cbn [replicate app]. by rewrite IH. }
      destruct Hshape as (n & Hc & Hr). exists n.
      unfold performSearch_start. destruct (trim q); cbn; split; assumption. }
    intros s e Hwf IH. destruct e as [q|dt|call outcome]; cbn [step].
    + destruct (setQuery_frame q s) as (Hc & Hr & _).
      unfold one_live_controller. rewrite Hc, Hr. exact IH.
    + destruct (advance_cases dt s Hwf)
        as (s0 & Hc & Hr & _ & _ & [[Heq _]|(q & Heq & _)]); rewrite Heq.
      * unfold one_live_controller. rewrite Hc, Hr. exact IH.
      * apply Hstart. unfold one_live_controller. rewrite Hc, Hr. exact IH.
    + destruct (settle_cases call outcome s Hwf) as (Hc & Hr & _).
      unfold one_live_controller. rewrite Hc, Hr. exact IH.
Qed.

Lemma armed_count_idle ts : pending_count ts = 0 -> armed_count ts = 0.
Proof.
  induction ts as [|t ts IH]; [reflexivity|].
  cbn [pending_count armed_count]. destruct (pending t); [lia|].
  intros H. apply IH. lia.
Qed.

Lemma armed_count_last ts t :
  pending_count ts = 0 ->
  armed_count (ts ++ [t]) =
  if pending t then length (sent_for (callback_query t)) else 0.
Proof.
  intros Hidle. induction ts as [|t0 ts IH]; cbn [app armed_count] in *.
  - lia.
  - cbn [pending_count] in Hidle. destruct (pending t0); [lia|].
    rewrite IH by lia. lia.
Qed.

Lemma sent_for_length q : length (sent_for q) <= 1.
Proof. unfold sent_for. destruct (trim q); cbn; lia. Qed.

Lemma setQuery_armed_count q s :
  wf s -> armed_count (timers (setQuery q s)) <= 1.
Proof.
  intros [_ _ (ts & tm & Hts & Hidle & Href)]. unfold setQuery.
  destruct (decide (q = query s)).
  - rewrite Hts, (armed_count_last ts tm Hidle).
    destruct (pending tm); [apply sent_for_length|lia].
  - destruct (debounce_effect_timers (setQueryState q s) ts tm Hts Href)
      as [Hts' _].
    rewrite Hts', armed_count_last by (apply pending_count_switch_off, Hidle).
    cbn [pending callback_query]. apply sent_for_length.
Qed.

Lemma performSearch_start_sent q s :
  length (calls (performSearch_start q s)) =
  length (calls s) + length (sent_for q).
Proof.
  rewrite performSearch_start_calls. unfold sent_for.
  destruct (trim q); [cbn; lia|]. rewrite length_app. reflexivity.
Qed.

(** X19. The hook sends at most one search per change of the query text:
    in every run, the number of [search_query] invocations is at most the
    number of [setQuery] calls. *)
Theorem at_most_one_search_per_setQuery :
  forall events : list event,
    length (invoked (run events initial)) <= count_setQuery events.
Proof.
  intros events. unfold invoked. rewrite length_map.
  assert (Hgen : forall s, wf s ->
            length (calls (run events s)) + armed_count (timers (run events s))
            <= length (calls s) + armed_count (timers s) + count_setQuery events).
  { induction events as [|e events IH]; intros s Hwf; [cbn; lia|].
    cbn [run fold_left]. fold (run events (step s e)).
    specialize (IH (step s e) (step_wf s e Hwf)).
    assert (Hstep : length (calls (step s e)) + armed_count (timers (step s e))
                    + count_setQuery events
                    <= length (calls s) + armed_count (timers s)
                       + count_setQuery (e :: events)); [|lia].
    destruct e as [q|dt|call outcome]; cbn [step count_setQuery].
    - destruct (setQuery_frame q s) as (_ & _ & Hc & _).
      pose proof (setQuery_armed_count q s Hwf). rewrite Hc. lia.
    - destruct (advance_cases dt s Hwf)
        as (s0 & _ & _ & Hcalls & _ & [[Heq Harm]|(q & Heq & Harm)]);
        rewrite Heq.
      + rewrite Hcalls, Harm. lia.
      + destruct (performSearch_start_timers q s0) as (Hts & _).
        rewrite performSearch_start_sent, Hts, Hcalls. lia.
    - destruct (settle_cases call outcome s Hwf) as (_ & _ & Hts & Hlen & _).
      rewrite Hts, Hlen. lia. }
  specialize (Hgen initial initial_wf).
  change (length (calls initial)) with 0 in Hgen.
  change (armed_count (timers initial)) with 0 in Hgen. lia.
Qed.

Lemma key_step q d s :
  wf s -> q <> query s -> d < DEBOUNCE_DELAY ->
  wf (run [SetQuery q; Advance d] s) /\
  query (run [SetQuery q; Advance d] s) = q /\
  calls (run [SetQuery q; Advance d] s) = calls s /\
  armed d (run [SetQuery q; Advance d] s).
Proof.
  intros Hwf Hq Hd. cbn [run fold_left step].
  pose proof (setQuery_wf q s Hwf) as Hwf1.
  split; [apply advance_wf, Hwf1|].
  split; [rewrite advance_query by exact Hwf1; apply setQuery_query|].
  destruct Hwf as [_ _ (ts & tm & Hts & Hidle & Href)].
  unfold setQuery in *. destruct (decide (q = query s)); [contradiction|].
  set (s0 := setQueryState q s) in *.
  destruct (debounce_effect_timers s0 ts tm Hts Href) as [Hts1 Href1].
  destruct (debounce_effect_frame s0) as (_ & _ & Hc1 & _ & Hq1 & Hnow1).
  set (s1 := debounce_effect s0) in *.
  pose proof (pending_count_switch_off ts tm Hidle) as Hidle1.
  rewrite (advance_last d s1 _ _ Hts1 Hidle1).
  cbn [pending deadline callback_query andb].
  change (now s0) with (now s) in *. change (query s0) with q in *.
  destruct (Nat.leb_spec (now s + DEBOUNCE_DELAY) (now s1 + d)) as [Hle|_];
    [rewrite Hnow1 in Hle; lia|].
  split; [cbn [calls with_now with_timers]; exact Hc1|].
  eexists _, _. cbn [timers with_now with_timers debounceTimerRef query now].
  split; [reflexivity|]. split; [exact Hidle1|]. split; [exact Href1|].
  cbn [pending callback_query deadline]. rewrite Hq1, Hnow1.
  repeat split. lia.
Qed.

Lemma typing_armed keys :
  forall s q d,
    wf s -> changes (query s) (keys ++ [(q, d)]) ->
    wf (run (typing (keys ++ [(q, d)])) s) /\
    query (run (typing (keys ++ [(q, d)])) s) = q /\
    calls (run (typing (keys ++ [(q, d)])) s) = calls s /\
    armed d (run (typing (keys ++ [(q, d)])) s).
Proof.
  induction keys as [|[q0 d0] keys IH]; intros s q d Hwf Hch.
  - cbn [app changes fst snd] in Hch. destruct Hch as (Hq & Hd & _).
    apply key_step; assumption.
  - cbn [app changes fst snd] in Hch. destruct Hch as (Hq0 & Hd0 & Hrest).
    change (typing (((q0, d0) :: keys) ++ [(q, d)]))
      with ([SetQuery q0; Advance d0] ++ typing (keys ++ [(q, d)])).
    rewrite run_app.
    destruct (key_step q0 d0 s Hwf Hq0 Hd0) as (Hwf1 & Hq1 & Hc1 & _).
    rewrite <- Hq1 in Hrest.
    destruct (IH _ q d Hwf1 Hrest) as (Hwf2 & Hq2 & Hc2 & Harmed).
    rewrite Hc2, Hc1.
    split; [exact Hwf2|]. split; [exact Hq2|]. split; [reflexivity|exact Harmed].
Qed.

(** X20. While the user keeps typing, each keystroke changing the text
    and following the previous one by less than 150 ms, no search is
    sent; once the keyboard has been quiet for 150 ms exactly one search
    is sent, for the last text typed, and none if that text is blank. *)
Theorem typing_sends_only_the_last_text :
  forall (events : list event) (keys : list (jsstring * nat))
         (q : jsstring) (d d' : nat),
    changes (query (run events initial)) (keys ++ [(q, d)]) ->
    DEBOUNCE_DELAY <= d + d' ->
    invoked (run (typing (keys ++ [(q, d)])) (run events initial))
      = invoked (run events initial) /\
    invoked (run (typing (keys ++ [(q, d)]) ++ [Advance d'])
               (run events initial))
      = invoked (run events initial) ++ sent_for q.
Proof.
  intros events keys q d d' Hch Hquiet.
  pose proof (run_wf events initial initial_wf) as Hwf.
  destruct (typing_armed keys _ q d Hwf Hch)
    as (Hwf' & Hq & Hcalls & (ts & t & Hts & Hidle & Href & Hp & Hcb & Hdl)).
  unfold invoked. split; [by rewrite Hcalls|].
  rewrite run_app. cbn [run fold_left step].
  rewrite (advance_last d' _ ts t Hts Hidle), Hp. cbn [andb].
  destruct (Nat.leb_spec (deadline t) (now (run (typing (keys ++ [(q, d)]))
                                         (run events initial)) + d'))
    as [_|Hlate]; [|lia].
  rewrite performSearch_start_calls, Hcb, Hq.
  cbn [calls with_now with_timers]. rewrite Hcalls. unfold sent_for.
  destruct (trim q); [by rewrite app_nil_r|].
  rewrite map_app. reflexivity.
Qed.

End SearchTraceFacts.

Section SearchTraceWitnesses.

Import Js UseSearch SearchTraces.

Lemma typing_sends_only_the_last_text_witness :
  changes (query (run [] initial))
    ([(str "d", 40); (str "do", 60)] ++ [(str "doc", 10)]) /\
  DEBOUNCE_DELAY <= 10 + 140 /\
  invoked (run (typing ([(str "d", 40); (str "do", 60)] ++ [(str "doc", 10)])
                ++ [Advance 140]) (run [] initial)) = [str "doc"].
Proof.
  assert (H1 : changes (query (run [] initial))
                 ([(str "d", 40); (str "do", 60)] ++ [(str "doc", 10)])).
  { cbn [app changes fst snd]. unfold DEBOUNCE_DELAY.
    repeat split; try lia; discriminate. }
  assert (H2 : DEBOUNCE_DELAY <= 10 + 140) by (unfold DEBOUNCE_DELAY; lia).
  split; [exact H1|]. split; [exact H2|].
  exact (proj2 (typing_sends_only_the_last_text []
                  [(str "d", 40); (str "do", 60)] (str "doc") 10 140 H1 H2)).
Defined.

End SearchTraceWitnesses.

(** ** Window visibility *)

Section WindowFacts.

Import UseWindowVisibility.

Lemma alternating_snoc cs a b :
  alternating (cs ++ [a]) -> a <> b -> alternating ((cs ++ [a]) ++ [b]).
Proof.
  induction cs as [|c cs IH]; intros Halt Hne.
  - cbn. split; [exact Hne|exact I].
  - cbn [app] in *. destruct cs as [|c' cs'].
    + cbn in *. destruct Halt as [Hca _]. repeat split; assumption.
    + cbn [app alternating] in *. destruct Halt as [Hcc Hrest].
      split; [exact Hcc|]. apply IH; assumption.
Qed.

Lemma setIsVisible_in_step updater w :
  in_step w -> in_step (setIsVisible updater w).
Proof.
  intros (before & Hsent & Halt & Hhd). unfold setIsVisible.
  destruct (Bool.eqb (updater (isVisible w)) (isVisible w)) eqn:Heq;
    [exists before; repeat split; assumption|].
  apply Bool.eqb_false_iff in Heq.
  unfold visibility_effect. cbn [isVisible sent].
  exists (sent w). split; [reflexivity|]. split.
  - rewrite Hsent. apply alternating_snoc; [by rewrite <- Hsent|].
    destruct (updater (isVisible w)), (isVisible w); cbn; congruence.
  - rewrite Hsent in Hhd |- *. destruct before; exact Hhd.
Qed.

(** X21. The back end is always told the state the hook is in: in every
    run of hotkey presses and show, hide and toggle calls, the last
    command sent is [show_window] exactly when [isVisible] is true, the
    first one is [show_window], and no command is sent twice in a row. *)
Theorem window_commands_follow_visibility :
  forall events : list event,
    last (sent (run events initial))
      = Some (if isVisible (run events initial) then ShowWindow else HideWindow) /\
    hd_error (sent (run events initial)) = Some ShowWindow /\
    alternating (sent (run events initial)).
Proof.
  intros events.
  assert (Hgen : forall w, in_step w -> in_step (run events w)).
  { induction events as [|e events IH]; intros w Hw; [exact Hw|].
    cbn [run fold_left]. apply IH.
    destruct e; cbn [step]; apply setIsVisible_in_step, Hw. }
  destruct (Hgen initial) as (before & Hsent & Halt & Hhd).
  { exists []. repeat split. }
  split; [|split; assumption].
  rewrite Hsent. apply last_snoc.
Qed.

End WindowFacts.

(** ** The updater *)

Section UpdaterFacts.

Import Js UseUpdater.

Lemma checkForUpdates_resume_fields outcome s :
  updateAvailable (snd (checkForUpdates_resume outcome s)) = updateAvailable s /\
  updateVersion (snd (checkForUpdates_resume outcome s)) = updateVersion s /\
  updateInstalled (snd (checkForUpdates_resume outcome s)) = updateInstalled s.
Proof. destruct outcome; repeat split. Qed.

(** X22. The "Update Available" banner always has a version to show: in
    every run of update events, manual checks and dismissals, whenever
    [updateAvailable] is set, [updateVersion] holds a version. *)
Theorem available_update_has_a_version :
  forall events : list event,
    updateAvailable (run events initial) = true ->
    exists version,
      updateVersion (run events initial) = Some version /\
      exists rest,
        UpdateNotification (run events initial)
        = Some (AvailableBanner (Some version) :: rest).
Proof.
  intros events.
  assert (Hgen : forall s,
            (updateAvailable s = true -> is_Some (updateVersion s)) ->
            updateAvailable (run events s) = true ->
            is_Some (updateVersion (run events s))).
  { induction events as [|e events IH]; intros s Hs; [exact Hs|].
    cbn [run fold_left]. apply IH.
    destruct e as [v| |m| |outcome|]; cbn [step];
      try (cbn; first [discriminate | eauto]; fail).
    destruct (checkForUpdates_resume_fields outcome s) as (Ha & Hv & _).
    rewrite Ha, Hv. exact Hs. }
  intros Havail.
  destruct (Hgen initial ltac:(discriminate) Havail) as [version Hv].
  exists version. split; [exact Hv|].
  unfold UpdateNotification. rewrite Havail, Hv. cbn. eauto.
Qed.

Lemma available_update_has_a_version_witness :
  updateAvailable
    (run [CheckStarted; UpdateAvailable (str "1.2.0");
          CheckSettled (inl (str "found"))] initial) = true /\
  exists version,
    updateVersion
      (run [CheckStarted; UpdateAvailable (str "1.2.0");
            CheckSettled (inl (str "found"))] initial) = Some version.
Proof.
  split; [reflexivity|].
  destruct (available_update_has_a_version
              [CheckStarted; UpdateAvailable (str "1.2.0");
               CheckSettled (inl (str "found"))] eq_refl)
    as (version & Hv & _).
  exists version. exact Hv.
Defined.


End UpdaterFacts.

(** ** The settings dialog *)

Section SettingsFacts.

Import Js Settings.

(** X24. Saving closes the dialog exactly when [update_settings]
    succeeds, whatever the auto-start check answers afterwards; a failure
    leaves the dialog open with the error recorded. Either way the
    settings sent are the ones the form holds, [saving] is cleared again
    and nothing is thrown. Without loaded settings nothing is sent or
    changed. *)
Theorem save_closes_exactly_on_success :
  forall (d : Dialog) (update_outcome : unit + value)
         (auto_start_outcome : bool + value),
    match settings d with
    | None => saveSettings update_outcome auto_start_outcome d = (inl tt, d)
    | Some current =>
        let after := snd (saveSettings update_outcome auto_start_outcome d) in
        fst (saveSettings update_outcome auto_start_outcome d) = inl tt /\
        saving after = false /\
        submitted after = submitted d ++ [current] /\
        settings after = Some current /\
        match update_outcome with
        | inl _ => closed after = S (closed d) /\ error after = None
        | inr err =>
            closed after = closed d /\
            autoStartStatus after = autoStartStatus d /\
            error after =
              Some (str "Failed to save settings: " ++ UseUpdater.to_String err)
        end
    end.
Proof.
  intros d update_outcome auto_start_outcome.
  unfold saveSettings, bind, get.
  destruct (settings d) as [current|] eqn:Hs; [|reflexivity].
  destruct update_outcome as [[]|err]; destruct auto_start_outcome as [b|e];
    cbn; rewrite ?Hs; repeat split.
Qed.

(** X25. [updateProvider] switches the one provider it names and nothing
    else: the flag reads back as written, every other provider and every
    other setting keeps its value, and writing twice keeps the second
    value. Before the settings are loaded it does nothing. *)
Theorem updateProvider_switches_one_provider :
  forall (d : Dialog) (k other : ProviderKey) (enabled again : bool),
    match settings d with
    | None => updateProvider k enabled d = d
    | Some s =>
        exists s',
          settings (updateProvider k enabled d) = Some s' /\
          provider k (enabled_providers s') = enabled /\
          (other = k \/
           provider other (enabled_providers s')
           = provider other (enabled_providers s)) /\
          with_setting (SetEnabledProviders (enabled_providers s)) s' = s /\
          updateProvider k again (updateProvider k enabled d)
          = updateProvider k again d
    end.
Proof.
  intros d k other enabled again. unfold updateProvider.
  destruct (settings d) as [s|] eqn:Hs; [|reflexivity].
  eexists. split; [reflexivity|]. split; [destruct k; reflexivity|].
  split; [destruct (decide_eq_key other k)|split].
  - by left.
  - right. destruct k, other; try reflexivity; congruence.
  - destruct s; reflexivity.
  - cbn [settings setSettings]. unfold setSettings. cbn.
    do 2 f_equal. destruct s as [h t m p sd sw]; destruct p; destruct k;
      reflexivity.
Qed.

(** X26. Opening the dialog never ends in a blank or a stuck "Loading"
    panel: when [get_settings] has settled, the form shows the loaded
    settings, or an error message is shown and the settings held before
    are kept; [loadSettings] itself never throws. *)
Theorem loading_ends_in_form_or_error :
  forall (d : Dialog) (outcome : AppSettings + value),
    fst (loadSettings outcome d) = inl tt /\
    loading (snd (loadSettings outcome d)) = false /\
    match outcome with
    | inl loaded =>
        content (snd (loadSettings outcome d)) = Form loaded
    | inr err =>
        content (snd (loadSettings outcome d))
          = ErrorMessage (str "Failed to load settings: "
                          ++ UseUpdater.to_String err) /\
        settings (snd (loadSettings outcome d)) = settings d
    end.
Proof.
  intros d [loaded|err]; repeat split.
Qed.

End SettingsFacts.
